(** * Shared-step expansion of [get_full_test_cases_from_api.py]

    A shallow embedding of the MagicPod help-center sample script: the
    shared-step expander, the step counter, and the two bulk-retrieval
    loops of [CustomMagicPodAPIClient] together with [_main].

    Python [str] values are sequences of Unicode code points; they are
    modelled as [list N] so that the Japanese marker prefix, the Unicode
    notion of whitespace used by [str.strip] and the line boundaries of
    [str.splitlines] are the real ones. Python integers are [Z], a dict
    from names to groups is a [gmap]. *)

From Stdlib Require Import NArith ZArith Ascii String DecimalString List Bool Lia.
From stdpp Require Import base option list gmap.

Local Open Scope N_scope.

(** ** Python strings *)

Module PyStr.

Abbreviation pystr := (list N).

(** An ASCII literal as a Python string. *)
Definition str (s : string) : pystr :=
  List.map N_of_ascii (list_ascii_of_string s).

Arguments str : simpl never.

Definition LF : N := 10.
Definition CR : N := 13.
Definition SPACE : N := 32.
Definition LPAREN : N := 40.
Definition RPAREN : N := 41.

(** [ch.isspace()]: the code points CPython's [_PyUnicode_IsWhitespace]
    accepts. *)
Definition isspace (c : N) : bool :=
  ((9 <=? c) && (c <=? 13)) || ((28 <=? c) && (c <=? 32))
  || (c =? 133) || (c =? 160) || (c =? 5760)
  || ((8192 <=? c) && (c <=? 8202))
  || (c =? 8232) || (c =? 8233) || (c =? 8239) || (c =? 8287)
  || (c =? 12288).

(** The line boundaries of [str.splitlines]. *)
Definition is_linebreak (c : N) : bool :=
  ((10 <=? c) && (c <=? 13)) || ((28 <=? c) && (c <=? 30))
  || (c =? 133) || (c =? 8232) || (c =? 8233).

(** [s.lstrip()], [s.rstrip()], [s.strip()] with no argument. *)
Fixpoint lstrip (s : pystr) : pystr :=
  match s with
  | [] => []
  | c :: r => if isspace c then lstrip r else s
  end.

Definition rstrip (s : pystr) : pystr := rev (lstrip (rev s)).

Definition strip (s : pystr) : pystr := rstrip (lstrip s).

(** [s.startswith(p)]. *)
Fixpoint startswith (s p : pystr) : bool :=
  match p, s with
  | [], _ => true
  | _ :: _, [] => false
  | a :: p', b :: s' => (a =? b) && startswith s' p'
  end.

(** [s.replace(old, new, 1)]: the leftmost occurrence only. *)
Fixpoint replace1 (s old new : pystr) : pystr :=
  if startswith s old then new ++ drop (length old) s
  else match s with
       | [] => []
       | c :: r => c :: replace1 r old new
       end.

(** [s.splitlines(keepends)]. A carriage return directly followed by a
    line feed is one boundary; the text after the last boundary is a
    line only when it is not empty. *)
Fixpoint splitlines_gen (keepends : bool) (s : pystr) : list pystr :=
  match s with
  | [] => []
  | c :: r =>
      if is_linebreak c then
        match r with
        | d :: r' =>
            if (c =? CR) && (d =? LF)
            then (if keepends then [c; d] else []) :: splitlines_gen keepends r'
            else (if keepends then [c] else []) :: splitlines_gen keepends r
        | [] => [if keepends then [c] else []]
        end
      else
        match splitlines_gen keepends r with
        | [] => [[c]]
        | l :: ls => (c :: l) :: ls
        end
  end.

Definition splitlines (s : pystr) : list pystr := splitlines_gen false s.

(** [" " * n]. *)
Definition spaces (n : nat) : pystr := repeat SPACE n.

(** [textwrap.indent(text, prefix)] with the default predicate: the
    prefix goes in front of every line that does not consist solely of
    whitespace (line ending included). *)
Definition textwrap_indent (text prefix : pystr) : pystr :=
  concat (List.map (fun line =>
                      match strip line with
                      | [] => line
                      | _ :: _ => prefix ++ line
                      end)
                   (splitlines_gen true text)).

End PyStr.

Import PyStr.

(** ** The regular expression [\(.*\)$]

    [re.search] and [re.sub] for the one pattern the script uses, written
    as the backtracking matcher runs it: [.] is any code point but the
    line feed, [.*] is greedy, and [$] holds at the end of the text and
    just before a line feed that ends the text. *)

Module Re.

(** [$] with the rest of the text in hand. *)
Definition at_dollar (rest : pystr) : bool :=
  match rest with
  | [] => true
  | [c] => c =? LF
  | _ => false
  end.

(** [.*\)$] from the current position: the number of code points
    matched by the longest alternative that succeeds. *)
Fixpoint dot_star_close (s : pystr) : option nat :=
  match s with
  | [] => None
  | c :: r =>
      match (if c =? LF then None else dot_star_close r) with
      | Some n => Some (S n)
      | None => if (c =? RPAREN) && at_dollar r then Some 1%nat else None
      end
  end.

(** The whole pattern anchored at the current position. *)
Definition match_here (s : pystr) : option nat :=
  match s with
  | c :: r => if c =? LPAREN then S <$> dot_star_close r else None
  | [] => None
  end.

(** [re.search(pattern, s)] as a truth value: is there a position
    where the pattern matches. *)
Fixpoint search (s : pystr) : bool :=
  match match_here s with
  | Some _ => true
  | None => match s with
            | [] => false
            | _ :: r => search r
            end
  end.

(** [re.sub(pattern, "", s)]: every non-overlapping match, leftmost
    first, is removed. [skip] code points of the match in progress
    are still to be dropped. *)
Fixpoint sub_from (skip : nat) (s : pystr) : pystr :=
  match s with
  | [] => []
  | c :: r =>
      match skip with
      | S k => sub_from k r
      | O => match match_here s with
             | Some n => sub_from (pred n) r
             | None => c :: sub_from O r
             end
      end
  end.

Definition sub (s : pystr) : pystr := sub_from O s.

End Re.

(** ** Shared Steps Expander *)

(** A record of the remote service, already decoded from JSON, with the
    fields the script reads. [total_step_count] is absent until [_main]
    adds it. The script indexes these fields without a check; records
    are taken to be well formed. *)
Record record := {
  number : Z;
  name : pystr;
  human_readable_steps : pystr;
  total_step_count : option nat
}.

(** [shared_step_name_map]: a dict from group name to group. *)
Abbreviation name_map := (gmap pystr record).

(** The marker prefixes, English then Japanese. *)
Definition prefixes : list pystr :=
  [ str "Shared step:";
    [0x5171; 0x6709; 0x30b9; 0x30c6; 0x30c3; 0x30d7; 0x3a] ].

(** The [for prefix in prefixes] loop of [extract_shared_step_name]. *)
Fixpoint extract_loop (s : pystr) (ps : list pystr) : pystr :=
  match ps with
  | [] => []
  | prefix :: ps' =>
      if startswith s prefix then replace1 s prefix [] else extract_loop s ps'
  end.

(** [extract_shared_step_name(step)]. *)
Definition extract_shared_step_name (step : pystr) : pystr :=
  extract_loop (strip step) prefixes.

(** The [while] loop of [shared_step_name_candidate_iterator]. Every
    round removes a match, which holds two parentheses at least, so the
    loop runs fewer times than the text is long: [fuel] bounds the
    rounds. *)
Fixpoint candidate_loop (fuel : nat) (current_text : pystr) : list pystr :=
  match fuel with
  | O => []
  | S fuel' =>
      if Re.search current_text then
        let current_text := Re.sub current_text in
        strip current_text :: candidate_loop fuel' current_text
      else []
  end.

(** [shared_step_name_candidate_iterator(shared_step_name)]: the values
    it yields, in order. *)
Definition shared_step_name_candidate_iterator (shared_step_name : pystr)
  : list pystr :=
  strip shared_step_name
    :: candidate_loop (length shared_step_name) shared_step_name.

(** The [for] loop of [expand_shared_step] over the candidates. [expand]
    is the recursive call into the expander; it yields [None] when the
    recursion is cut off. *)
Fixpoint expand_candidates (expand : pystr -> option pystr)
  (candidates : list pystr) (shared_step_name_map : name_map) (indent : nat)
  : option pystr :=
  match candidates with
  | [] => Some []
  | shared_step_name_candidate :: rest =>
      match shared_step_name_map !! shared_step_name_candidate with
      | None => expand_candidates expand rest shared_step_name_map indent
      | Some shared_step =>
          (fun text => textwrap_indent text (spaces indent))
            <$> expand (human_readable_steps shared_step)
      end
  end.

(** The [for step in ...] loop of
    [human_readable_steps_with_shared_steps_expanded]; [res] is the text
    built so far. *)
Fixpoint expand_steps (expand : pystr -> option pystr)
  (steps : list pystr) (shared_step_name_map : name_map) (res : pystr)
  : option pystr :=
  match steps with
  | [] => Some res
  | step :: rest =>
      let res := res ++ step ++ [LF] in
      let shared_step_name := extract_shared_step_name step in
      match shared_step_name with
      | [] => expand_steps expand rest shared_step_name_map res
      | _ :: _ =>
          let indent := (2 + length step - length (lstrip step))%nat in
          match expand_candidates expand
                  (shared_step_name_candidate_iterator shared_step_name)
                  shared_step_name_map indent with
          | None => None
          | Some expansion =>
              expand_steps expand rest shared_step_name_map (res ++ expansion)
          end
      end
  end.

(** [human_readable_steps_with_shared_steps_expanded(human_readable_steps,
    shared_step_name_map)]. The script has no guard on the recursion
    through shared steps: [depth] is the number of nested calls the
    interpreter still allows, and [None] is the recursion being cut off
    (a [RecursionError]). *)
Fixpoint human_readable_steps_with_shared_steps_expanded (depth : nat)
  (human_readable_steps : pystr) (shared_step_name_map : name_map)
  : option pystr :=
  match depth with
  | O => None
  | S depth' =>
      expand_steps
        (fun steps =>
           human_readable_steps_with_shared_steps_expanded depth' steps
             shared_step_name_map)
        (splitlines human_readable_steps) shared_step_name_map []
  end.

(** [expand_shared_step(shared_step_name, shared_step_name_map, indent)]. *)
Definition expand_shared_step (depth : nat) (shared_step_name : pystr)
  (shared_step_name_map : name_map) (indent : nat) : option pystr :=
  expand_candidates
    (fun steps =>
       human_readable_steps_with_shared_steps_expanded depth steps
         shared_step_name_map)
    (shared_step_name_candidate_iterator shared_step_name)
    shared_step_name_map indent.

(** ** Calculate Total Steps *)

(** [extract_shared_step_name(step) == ""]. *)
Definition is_leaf (step : pystr) : bool :=
  match extract_shared_step_name step with
  | [] => true
  | _ :: _ => false
  end.

(** [calculate_total_step_count(expanded_human_readable_steps)]. *)
Definition calculate_total_step_count (expanded_human_readable_steps : pystr)
  : nat :=
  length (List.filter is_leaf (splitlines expanded_human_readable_steps)).

(** ** Derived notions used in the statements *)

(** The group the loop of [expand_shared_step] stops at: the first
    candidate that is a key of the map. *)
Fixpoint first_known (candidates : list pystr) (shared_step_name_map : name_map)
  : option record :=
  match candidates with
  | [] => None
  | candidate :: rest =>
      match shared_step_name_map !! candidate with
      | Some shared_step => Some shared_step
      | None => first_known rest shared_step_name_map
      end
  end.

Definition resolve (shared_step_name : pystr) (shared_step_name_map : name_map)
  : option record :=
  first_known (shared_step_name_candidate_iterator shared_step_name)
    shared_step_name_map.

(** The text before the first opening parenthesis. *)
Fixpoint before_paren (s : pystr) : pystr :=
  match s with
  | [] => []
  | c :: r => if c =? LPAREN then [] else c :: before_paren r
  end.

(** A text with no line feed in it, as every name taken from a line
    is. *)
Definition no_lf (s : pystr) : Prop := Forall (fun c => c <> LF) s.

(** A line: a text with no line boundary in it. *)
Definition is_line (l : pystr) : Prop := Forall (fun c => is_linebreak c = false) l.

(** Lines written out, each followed by one line feed. *)
Definition join_lines (ls : list pystr) : pystr :=
  concat (List.map (fun l => l ++ [LF]) ls).

(** A line that consists solely of whitespace. *)
Definition is_blank (l : pystr) : bool := forallb isspace l.

(** What [textwrap.indent] does to one line (without its ending). *)
Definition indent_line (prefix l : pystr) : pystr :=
  if is_blank l then l else prefix ++ l.

(** The number of leading whitespace code points of a line,
    [len(step) - len(step.lstrip())]. *)
Definition leading_whitespace (step : pystr) : nat :=
  (length step - length (lstrip step))%nat.

(** ** Notions worded as the specification words them *)

(** The indentation as C6 words it: every line of the expanded steps
    gets the spaces in front. *)
Definition indent_every_line (n : nat) (text : pystr) : pystr :=
  join_lines (List.map (fun l => spaces n ++ l) (splitlines text)).

(** The count as the specification words it: one for every line on
    which the extractor yields the empty string. *)
Fixpoint count_leaf_steps (lines : list pystr) : nat :=
  match lines with
  | [] => 0%nat
  | step :: rest =>
      match extract_shared_step_name step with
      | [] => S (count_leaf_steps rest)
      | _ :: _ => count_leaf_steps rest
      end
  end.

(** The lines on which the extractor yields a name. *)
Definition reference_lines (lines : list pystr) : list pystr :=
  List.filter (fun step => negb (is_leaf step)) lines.

(** * The API client *)

(** [str(n)] for a Python integer. *)
Definition str_of_int (n : Z) : pystr :=
  str (NilZero.string_of_int (Z.to_int n)).

(** [sep.join(parts)]. *)
Fixpoint join (sep : pystr) (parts : list pystr) : pystr :=
  match parts with
  | [] => []
  | [p] => p
  | p :: rest => p ++ sep ++ join sep rest
  end.

(** [urlencode(params)] for the parameters the script sends: the keys
    are identifiers and the values integers, which quoting leaves as
    they are. *)
Definition urlencode (params : list (pystr * Z)) : pystr :=
  join (str "&")
       (List.map (fun kv => fst kv ++ str "=" ++ str_of_int (snd kv)) params).

Definition BASE_URL : pystr := str "https://app.magicpod.com/api/v1.0".

(** The client object: [self.token] and [self.locale]. *)
Record client := { token : pystr; locale : pystr }.

(** What [urllib.request.Request(url, headers=headers)] holds. *)
Record request := { url : pystr; headers : list (pystr * pystr) }.

(** What happens inside the [try] of [_make_api_request]: an
    [HTTPError], any other exception (a network error, a body that is
    not JSON) with its text [str(e)], or the decoded body. *)
Inductive urlopen_result (A : Type) : Type :=
| HTTPError (code : Z) (reason : pystr)
| OtherException (text : pystr)
| Loaded (data : A).
Arguments HTTPError {A}.
Arguments OtherException {A}.
Arguments Loaded {A}.

(** The dict every client method returns:
    [{"error": True, "message": ...}] or [{"error": False, "data": ...}]. *)
Inductive response (A : Type) : Type :=
| Error (message : pystr)
| Data (data : A).
Arguments Error {A}.
Arguments Data {A}.

(** One request in the order of issue: its URL and, when it failed,
    the message of the error result. *)
Definition event : Type := pystr * option pystr.

(** How the [while True] loop of a bulk retrieval is left: by
    [return res] on an error, or by [break] with the items gathered. *)
Inductive loop_exit : Type :=
| Returned (res : response (list record))
| Broke (all_items : list record).

(** How [_main] ends: [exit(1)] after [logger.error(message)], with
    nothing printed, or the test cases printed as JSON. *)
Inductive outcome : Type :=
| Exit (status : Z) (logged : pystr)
| Printed (test_cases : list record).

Section Service.

(** The remote service and the network, as a state that every request
    may change. A list endpoint answers with a page of records (the
    value under "shared_steps" or "test_cases"), an item endpoint with
    one record. *)
Variable World : Type.
Variable urlopen_page : request -> World -> urlopen_result (list record) * World.
Variable urlopen_record : request -> World -> urlopen_result record * World.

(** Computations that talk to the service: the result, the state of the
    service afterwards, and the requests issued. *)
Definition M (A : Type) : Type := World -> A * World * list event.

Definition ret {A : Type} (a : A) : M A := fun w => (a, w, []).

Definition bind {A B : Type} (m : M A) (k : A -> M B) : M B :=
  fun w =>
    let '(a, w1, l1) := m w in
    let '(b, w2, l2) := k a w1 in
    (b, w2, l1 ++ l2).

Notation "'call' x ':=' m 'in' k" := (bind m (fun x => k))
  (at level 10, x name, m at level 200, k at level 200).

(** [self._make_api_request(url, params)]. *)
Definition _make_api_request {A : Type}
  (urlopen : request -> World -> urlopen_result A * World)
  (self : client) (url : pystr) (params : list (pystr * Z)) : M (response A) :=
  fun w =>
    let url :=
      match params with
      | [] => url
      | _ :: _ => url ++ str "?" ++ urlencode params
      end in
    let headers :=
      [ (str "Authorization", str "Token " ++ token self);
        (str "Content-Type", str "application/json");
        (str "Accept-Language", locale self) ] in
    let '(result, w') := urlopen {| url := url; headers := headers |} w in
    match result with
    | Loaded data => (Data data, w', [(url, None)])
    | HTTPError code reason =>
        let message :=
          str "Error: " ++ url ++ str " - " ++ str_of_int code
            ++ str " - " ++ reason in
        (Error message, w', [(url, Some message)])
    | OtherException text =>
        let message := str "Error: " ++ url ++ str " - " ++ text in
        (Error message, w', [(url, Some message)])
    end.

Definition get_shared_steps (self : client)
  (organization_name project_name : pystr) (params : list (pystr * Z))
  : M (response (list record)) :=
  _make_api_request urlopen_page self
    (BASE_URL ++ str "/" ++ organization_name ++ str "/" ++ project_name
       ++ str "/shared-steps/") params.

Definition get_shared_step (self : client)
  (organization_name project_name : pystr) (shared_step_number : Z)
  : M (response record) :=
  _make_api_request urlopen_record self
    (BASE_URL ++ str "/" ++ organization_name ++ str "/" ++ project_name
       ++ str "/shared-steps/" ++ str_of_int shared_step_number ++ str "/") [].

Definition get_test_cases (self : client)
  (organization_name project_name : pystr) (params : list (pystr * Z))
  : M (response (list record)) :=
  _make_api_request urlopen_page self
    (BASE_URL ++ str "/" ++ organization_name ++ str "/" ++ project_name
       ++ str "/test-cases/") params.

Definition get_test_case (self : client)
  (organization_name project_name : pystr) (test_case_number : Z)
  : M (response record) :=
  _make_api_request urlopen_record self
    (BASE_URL ++ str "/" ++ organization_name ++ str "/" ++ project_name
       ++ str "/test-cases/" ++ str_of_int test_case_number ++ str "/") [].

(** The [while True] loop of [get_full_shared_steps] and, word for
    word, of [get_full_test_cases]: [get_page] is the list request
    with the cursor as its parameter, [all_items] the list extended so
    far, [min_number] the cursor. [last items] is [items[-1]], which
    there is unless [len(items) <= 0]. The loop has no bound of its
    own; [fuel] is the number of rounds looked at, and [None] says the
    loop is still running after them. *)
Fixpoint collect_pages (fuel : nat) (get_page : Z -> M (response (list record)))
  (all_items : list record) (min_number : Z) : M (option loop_exit) :=
  match fuel with
  | O => ret None
  | S fuel' =>
      call res := get_page min_number in
      match res with
      | Error message => ret (Some (Returned (Error message)))
      | Data items =>
          match last items with
          | None => ret (Some (Broke all_items))
          | Some last_item =>
              collect_pages fuel' get_page (all_items ++ items)
                (number last_item + 1)%Z
          end
      end
  end.

(** The [for] loop over the numbers that fetches every item on its
    own; [items] is the list appended to so far. *)
Fixpoint fetch_each (get_item : Z -> M (response record))
  (numbers : list Z) (items : list record) : M (response (list record)) :=
  match numbers with
  | [] => ret (Data items)
  | n :: rest =>
      call res := get_item n in
      match res with
      | Error message => ret (Error message)
      | Data data => fetch_each get_item rest (items ++ [data])
      end
  end.

(** The loop of [get_full_shared_steps] with its initial values:
    [all_shared_steps = []] and [min_shared_step_number = 1]. *)
Definition shared_steps_loop (fuel : nat) (self : client)
  (organization_name project_name : pystr) : M (option loop_exit) :=
  collect_pages fuel
    (fun min_shared_step_number =>
       get_shared_steps self organization_name project_name
         [(str "min_shared_step_number", min_shared_step_number)])
    [] 1%Z.

(** [self.get_full_shared_steps(organization_name, project_name)]. *)
Definition get_full_shared_steps (fuel : nat) (self : client)
  (organization_name project_name : pystr)
  : M (option (response (list record))) :=
  call exit := shared_steps_loop fuel self organization_name project_name in
  match exit with
  | None => ret None
  | Some (Returned res) => ret (Some res)
  | Some (Broke all_shared_steps) =>
      let shared_step_numbers := List.map number all_shared_steps in
      call res := fetch_each (get_shared_step self organization_name project_name)
               shared_step_numbers [] in
      ret (Some res)
  end.

(** The loop of [get_full_test_cases] with its initial values:
    [all_test_cases = []] and [min_test_case_number = 1]. *)
Definition test_cases_loop (fuel : nat) (self : client)
  (organization_name project_name : pystr) : M (option loop_exit) :=
  collect_pages fuel
    (fun min_test_case_number =>
       get_test_cases self organization_name project_name
         [(str "min_test_case_number", min_test_case_number)])
    [] 1%Z.

(** [self.get_full_test_cases(organization_name, project_name,
    test_case_numbers)]; [None] for [test_case_numbers] is Python's. *)
Definition get_full_test_cases (fuel : nat) (self : client)
  (organization_name project_name : pystr)
  (test_case_numbers : option (list Z))
  : M (option (response (list record))) :=
  match test_case_numbers with
  | None =>
      call exit := test_cases_loop fuel self organization_name project_name in
      match exit with
      | None => ret None
      | Some (Returned res) => ret (Some res)
      | Some (Broke all_test_cases) =>
          let test_case_numbers := List.map number all_test_cases in
          call res := fetch_each (get_test_case self organization_name project_name)
                   test_case_numbers [] in
          ret (Some res)
      end
  | Some test_case_numbers =>
      call res := fetch_each (get_test_case self organization_name project_name)
               test_case_numbers [] in
      ret (Some res)
  end.

(** The dict comprehension of [_main]: a later group takes the place
    of an earlier one of the same name. *)
Definition build_name_map (shared_steps : list record) : name_map :=
  fold_left (fun m shared_step => <[ name shared_step := shared_step ]> m)
            shared_steps ∅.

(** The [for test_case in test_cases] loop of [_main]. [None] when an
    expansion is cut off. *)
Fixpoint expand_test_cases (depth : nat) (test_cases : list record)
  (shared_step_name_map : name_map) : option (list record) :=
  match test_cases with
  | [] => Some []
  | test_case :: rest =>
      match human_readable_steps_with_shared_steps_expanded depth
              (human_readable_steps test_case) shared_step_name_map with
      | None => None
      | Some expanded =>
          let test_case :=
            {| number := number test_case;
               name := name test_case;
               human_readable_steps := expanded;
               total_step_count := Some (calculate_total_step_count expanded) |} in
          cons test_case <$> expand_test_cases depth rest shared_step_name_map
      end
  end.

(** [_main(token, organization_name, project_name, test_case_numbers,
    locale)]. [None]: no end within the allowance [fuel] (a retrieval
    loop still running, or an expansion cut off). *)
Definition _main (fuel : nat) (token organization_name project_name : pystr)
  (test_case_numbers : option (list Z)) (locale : pystr)
  : M (option outcome) :=
  let client := {| token := token; locale := locale |} in
  call res := get_full_shared_steps fuel client organization_name project_name in
  match res with
  | None => ret None
  | Some (Error message) => ret (Some (Exit 1 message))
  | Some (Data shared_steps) =>
      call res := get_full_test_cases fuel client organization_name project_name
               test_case_numbers in
      match res with
      | None => ret None
      | Some (Error message) => ret (Some (Exit 1 message))
      | Some (Data test_cases) =>
          let shared_step_name_map := build_name_map shared_steps in
          ret (Printed <$> expand_test_cases fuel test_cases shared_step_name_map)
      end
  end.

End Service.

Arguments ret {World A}.
Arguments bind {World A B}.
Arguments _make_api_request {World A}.
Arguments get_shared_steps {World}.
Arguments get_shared_step {World}.
Arguments get_test_cases {World}.
Arguments get_test_case {World}.
Arguments collect_pages {World}.
Arguments fetch_each {World}.
Arguments shared_steps_loop {World}.
Arguments test_cases_loop {World}.
Arguments get_full_shared_steps {World}.
Arguments get_full_test_cases {World}.
Arguments _main {World}.

(** ** The paging protocol, as the specification words it *)

(** Why the paging stopped: a page with zero items, or a failed
    request. *)
Inductive stop : Type :=
| ZeroItems
| Failure (message : pystr).

(** [paged get_page cursor w pages s w' log]: from the cursor [cursor]
    and the service state [w], the page requests returned the non-empty
    pages [pages], one after the other, each request made with the
    number of the last item of the page before plus one, and then
    stopped for the reason [s]. *)
Inductive paged {World : Type} (get_page : Z -> M World (response (list record)))
  : Z -> World -> list (list record) -> stop -> World -> list event -> Prop :=
| paged_zero cursor w w' log :
    get_page cursor w = (Data [], w', log) ->
    paged get_page cursor w [] ZeroItems w' log
| paged_failure cursor w w' log message :
    get_page cursor w = (Error message, w', log) ->
    paged get_page cursor w [] (Failure message) w' log
| paged_next cursor w page item w1 log1 pages s w' log :
    get_page cursor w = (Data page, w1, log1) ->
    last page = Some item ->
    paged get_page (number item + 1)%Z w1 pages s w' log ->
    paged get_page cursor w (page :: pages) s w' (log1 ++ log).

(** How the loop is left for a given reason, with [all_items] gathered
    before and [pages] read. *)
Definition exit_for (all_items : list record) (pages : list (list record))
  (s : stop) : loop_exit :=
  match s with
  | ZeroItems => Broke (all_items ++ concat pages)
  | Failure message => Returned (Error message)
  end.

(** ** Requests that fail *)

(** No request of the log failed. *)
Definition clean (log : list event) : Prop := Forall (fun e => snd e = None) log.

(** The last request of the log failed with [message]; none before
    did. *)
Definition failed_last (message : pystr) (log : list event) : Prop :=
  exists earlier url, log = earlier ++ [(url, Some message)] /\ clean earlier.

(** The message of a failed request holds its URL and then the
    reason. *)
Definition tells_url (e : event) : Prop :=
  match snd e with
  | None => True
  | Some message =>
      exists reason, message = str "Error: " ++ fst e ++ str " - " ++ reason
  end.

(** The discipline of every client operation: an error result is the
    message of the last request, the only one that failed; any other
    end, and no end yet, means that no request failed. *)
Definition aborts_on_failure (failure : option pystr) (log : list event) : Prop :=
  Forall tells_url log
  /\ match failure with
     | Some message => failed_last message log
     | None => clean log
     end.

(** The request to [url] is the last of the log and the only one that
    failed, and [message], its error message, holds the URL and the
    reason. *)
Definition only_failure (url message : pystr) (log : list event) : Prop :=
  (exists earlier, log = earlier ++ [(url, Some message)] /\ clean earlier)
  /\ (exists reason, message = str "Error: " ++ url ++ str " - " ++ reason).

Definition error_of {A : Type} (res : response A) : option pystr :=
  match res with
  | Error message => Some message
  | Data _ => None
  end.

Definition error_of_exit (exit : option loop_exit) : option pystr :=
  match exit with
  | Some (Returned res) => error_of res
  | _ => None
  end.

Definition error_of_result {A : Type} (r : option (response A)) : option pystr :=
  match r with
  | Some res => error_of res
  | None => None
  end.

Definition error_of_outcome (r : option outcome) : option pystr :=
  match r with
  | Some (Exit _ message) => Some message
  | _ => None
  end.

(** * Sample data of the specification's scenarios *)

Definition group (n : Z) (nm steps : pystr) : record :=
  {| number := n; name := nm; human_readable_steps := steps;
     total_step_count := None |}.

Definition login_steps : pystr :=
  str "Enter username" ++ [LF] ++ str "Enter password".

Definition login_input : pystr :=
  str "Shared step: Login" ++ [LF] ++ str "Click submit".

Definition login_expected : pystr :=
  str "Shared step: Login" ++ [LF] ++ str "  Enter username" ++ [LF]
    ++ str "  Enter password" ++ [LF] ++ str "Click submit".

Definition ghost_input : pystr :=
  str "Shared step: Ghost" ++ [LF] ++ str "Do thing".

Definition both_logins : name_map :=
  <[ str "Login (2)" := group 2 (str "Login (2)") (str "Second login") ]>
    {[ str "Login" := group 1 (str "Login") (str "First login") ]}.

Definition setup_steps : pystr :=
  str "Open page" ++ [LF; LF] ++ str "Close page".

(** A service that answers the list requests from a script, one answer
    per request, and has nothing more once the script is used up. *)
Definition scripted_pages (_ : request)
  (script : list (urlopen_result (list record)))
  : urlopen_result (list record) * list (urlopen_result (list record)) :=
  match script with
  | [] => (Loaded [], [])
  | answer :: rest => (answer, rest)
  end.

(** Every item request of that service fails with status 404. *)
Definition no_record (_ : request)
  (script : list (urlopen_result (list record)))
  : urlopen_result record * list (urlopen_result (list record)) :=
  (HTTPError 404 (str "Not Found"), script).

Definition acme : client := {| token := str "secret"; locale := str "en" |}.

Definition page_request_url (cursor : pystr) : pystr :=
  str "https://app.magicpod.com/api/v1.0/Acme/Shop/shared-steps/?min_shared_step_number="
    ++ cursor.

Definition item_request_url (n : pystr) : pystr :=
  str "https://app.magicpod.com/api/v1.0/Acme/Shop/shared-steps/" ++ n ++ str "/".

Definition not_found_message : pystr :=
  str "Error: " ++ item_request_url (str "3") ++ str " - 404 - Not Found".

(** ** Notions used in the further properties *)

(** The step count of an expansion, counted line by line without
    building the text: a leaf counts one, a reference line that
    resolves counts what the expansion of its group counts, any other
    reference line counts nothing. [count] is the count of a nested
    expansion, [None] when it is cut off. *)
Fixpoint count_steps (count : pystr -> option nat) (steps : list pystr)
  (shared_step_name_map : name_map) : option nat :=
  match steps with
  | [] => Some 0%nat
  | step :: rest =>
      match extract_shared_step_name step with
      | [] => S <$> count_steps count rest shared_step_name_map
      | _ :: _ =>
          match resolve (extract_shared_step_name step) shared_step_name_map with
          | None => count_steps count rest shared_step_name_map
          | Some shared_step =>
              match count (human_readable_steps shared_step) with
              | None => None
              | Some n =>
                  Nat.add n <$> count_steps count rest shared_step_name_map
              end
          end
      end
  end.

Fixpoint expansion_step_count (depth : nat) (block : pystr)
  (shared_step_name_map : name_map) : option nat :=
  match depth with
  | O => None
  | S depth' =>
      count_steps
        (fun steps => expansion_step_count depth' steps shared_step_name_map)
        (splitlines block) shared_step_name_map
  end.


Definition shared_step_url (organization_name project_name : pystr)
  (shared_step_number : Z) : pystr :=
  BASE_URL ++ str "/" ++ organization_name ++ str "/" ++ project_name
    ++ str "/shared-steps/" ++ str_of_int shared_step_number ++ str "/".

(** What the loop over the test cases of [_main] does to one test
    case: the number and the name stay, the steps are expanded, and the
    count is the count of the expanded steps. *)
Definition expanded_test_case (depth : nat) (shared_step_name_map : name_map)
  (test_case printed : record) : Prop :=
  number printed = number test_case
  /\ name printed = name test_case
  /\ human_readable_steps_with_shared_steps_expanded depth
       (human_readable_steps test_case) shared_step_name_map
     = Some (human_readable_steps printed)
  /\ total_step_count printed
     = Some (calculate_total_step_count (human_readable_steps printed)).

(** ** More sample data *)

(** The steps of a group that refers to itself. *)
Definition loop_steps : pystr :=
  str "Open page" ++ [LF] ++ str "Shared step: Loop".

(** A service whose list requests always answer with the same one
    item, and whose item requests always succeed. *)
Definition endless_pages (_ : request) (w : unit)
  : urlopen_result (list record) * unit :=
  (Loaded [group 1 (str "A") []], w).

Definition any_record (_ : request) (w : unit) : urlopen_result record * unit :=
  (Loaded (group 1 (str "A") (str "Click submit")), w).

(** Every item request of the scripted service answers with the same
    record. *)
Definition found_record (_ : request)
  (script : list (urlopen_result (list record)))
  : urlopen_result record * list (urlopen_result (list record)) :=
  (Loaded (group 1 (str "A") (str "Click submit")), script).

(** * Facts about the string primitives *)

Section StringFacts.

Lemma linebreak_isspace c : is_linebreak c = true -> isspace c = true.
Proof.
  unfold is_linebreak, isspace.
  rewrite !orb_true_iff, !andb_true_iff, !N.leb_le, !N.eqb_eq. lia.
Qed.

Lemma space_not_linebreak : is_linebreak SPACE = false.
Proof. reflexivity. Qed.

Lemma is_line_app l1 l2 : is_line l1 -> is_line l2 -> is_line (l1 ++ l2).
Proof. unfold is_line. intros. apply Forall_app; auto. Qed.

Lemma is_line_spaces n : is_line (spaces n).
Proof.
  unfold is_line, spaces. induction n; simpl; constructor; auto.
Qed.

Lemma join_lines_cons l ls : join_lines (l :: ls) = l ++ LF :: join_lines ls.
Proof. unfold join_lines. simpl. now rewrite <- app_assoc. Qed.

Lemma join_lines_app ls1 ls2 :
  join_lines (ls1 ++ ls2) = join_lines ls1 ++ join_lines ls2.
Proof. unfold join_lines. now rewrite List.map_app, concat_app. Qed.

Lemma join_lines_one l : join_lines [l] = l ++ [LF].
Proof. unfold join_lines. simpl. now rewrite app_nil_r. Qed.

(** [splitlines] yields lines. *)
Lemma splitlines_is_line s : Forall is_line (splitlines s).
Proof.
  unfold splitlines.
  enough (H : Forall is_line (splitlines_gen false s)
              /\ forall d r, s = d :: r -> Forall is_line (splitlines_gen false r))
    by apply H.
  induction s as [|c r [IH1 IH2]]; split; try (simpl; constructor); try discriminate.
  - simpl. destruct (is_linebreak c) eqn:Hc.
    + destruct r as [|d r'].
      * repeat constructor.
      * destruct ((c =? CR) && (d =? LF)); constructor;
          try (constructor; fail); eauto.
    + destruct (splitlines_gen false r) as [|l ls]; inversion IH1; subst.
      * repeat constructor. exact Hc.
      * constructor; auto. constructor; auto.
  - intros d r0 [= -> ->]. exact IH1.
Qed.

(** Splitting a line that is followed by a line feed. *)
Lemma splitlines_gen_line keep l rest :
  is_line l ->
  splitlines_gen keep (l ++ LF :: rest)
  = (l ++ if keep then [LF] else []) :: splitlines_gen keep rest.
Proof.
  induction 1 as [|c l Hc Hl IH].
  - simpl. destruct rest as [|d r']; reflexivity.
  - change ((c :: l) ++ LF :: rest) with (c :: (l ++ LF :: rest)).
    cbn [splitlines_gen]. rewrite Hc, IH. reflexivity.
Qed.

Lemma splitlines_gen_join keep ls :
  Forall is_line ls ->
  splitlines_gen keep (join_lines ls)
  = List.map (fun l => l ++ if keep then [LF] else []) ls.
Proof.
  induction 1 as [|l ls Hl Hls IH]; [reflexivity|].
  rewrite join_lines_cons, splitlines_gen_line by assumption.
  simpl. now rewrite IH.
Qed.

Lemma splitlines_join ls : Forall is_line ls -> splitlines (join_lines ls) = ls.
Proof.
  intros H. unfold splitlines. rewrite splitlines_gen_join by assumption.
  induction ls as [|l ls IH]; simpl; [reflexivity|].
  inversion H; subst. rewrite app_nil_r. f_equal. auto.
Qed.

Lemma splitlines_nil s : splitlines s = [] <-> s = [].
Proof.
  split; [|intros ->; reflexivity].
  unfold splitlines. destruct s as [|c r]; [reflexivity|]. simpl.
  destruct (is_linebreak c).
  - destruct r as [|d r']; [discriminate|].
    destruct ((c =? CR) && (d =? LF)); discriminate.
  - destruct (splitlines_gen false r); discriminate.
Qed.

(** Stripping leaves nothing exactly when the text is blank. *)
Lemma lstrip_nil s : lstrip s = [] <-> is_blank s = true.
Proof.
  unfold is_blank. induction s as [|c r IH]; simpl; [tauto|].
  destruct (isspace c); simpl; [exact IH|]. split; discriminate.
Qed.

Lemma is_blank_lstrip s : is_blank (lstrip s) = is_blank s.
Proof.
  unfold is_blank. induction s as [|c r IH]; simpl; [reflexivity|].
  destruct (isspace c) eqn:Hc; simpl; [exact IH|]. now rewrite Hc.
Qed.

Lemma is_blank_rev s : is_blank (rev s) = is_blank s.
Proof.
  unfold is_blank. induction s as [|c r IH]; simpl; [reflexivity|].
  rewrite forallb_app, IH. simpl. rewrite andb_true_r. apply andb_comm.
Qed.

Lemma strip_nil s : strip s = [] <-> is_blank s = true.
Proof.
  unfold strip, rstrip.
  rewrite <- (is_blank_lstrip s), <- (is_blank_rev (lstrip s)), <- lstrip_nil.
  split; intros H.
  - apply (f_equal (@rev N)) in H. now rewrite rev_involutive in H.
  - now rewrite H.
Qed.

Lemma is_blank_line_end l : is_blank (l ++ [LF]) = is_blank l.
Proof.
  unfold is_blank. rewrite forallb_app. simpl. apply andb_true_r.
Qed.

(** [textwrap.indent] on a text made of lines. *)
Lemma textwrap_indent_join ls prefix :
  Forall is_line ls ->
  textwrap_indent (join_lines ls) prefix
  = join_lines (List.map (indent_line prefix) ls).
Proof.
  intros H. unfold textwrap_indent.
  rewrite splitlines_gen_join by assumption.
  unfold join_lines. rewrite !List.map_map. f_equal.
  apply List.map_ext. intros l. unfold indent_line.
  destruct (strip (l ++ [LF])) eqn:Hs.
  - apply strip_nil in Hs. rewrite is_blank_line_end in Hs. now rewrite Hs.
  - destruct (is_blank l) eqn:Hb.
    + rewrite <- is_blank_line_end in Hb. apply strip_nil in Hb. congruence.
    + now rewrite app_assoc.
Qed.

Lemma indent_line_is_line n l : is_line l -> is_line (indent_line (spaces n) l).
Proof.
  intros H. unfold indent_line. destruct (is_blank l); [exact H|].
  apply is_line_app; [apply is_line_spaces | exact H].
Qed.

Lemma indent_lines_are_lines n ls :
  Forall is_line ls -> Forall is_line (List.map (indent_line (spaces n)) ls).
Proof.
  induction 1; simpl; constructor; auto using indent_line_is_line.
Qed.

End StringFacts.

(** * The primitives on sample inputs *)

Example splitlines_boundaries :
  splitlines (str "a" ++ [CR; LF] ++ str "b" ++ [CR; CR] ++ str "c" ++ [LF])
  = [str "a"; str "b"; []; str "c"].
Proof. vm_compute. reflexivity. Qed.

Example splitlines_no_final_boundary :
  splitlines (str "a" ++ [LF] ++ str "b") = [str "a"; str "b"]
  /\ splitlines (@nil N) = [] /\ splitlines [LF] = [[]].
Proof. vm_compute. repeat split. Qed.

Example textwrap_indent_skips_blank_lines :
  textwrap_indent (str "a" ++ [LF; LF] ++ str " " ++ [LF] ++ str "b") (spaces 2)
  = str "  a" ++ [LF; LF] ++ str " " ++ [LF] ++ str "  b".
Proof. vm_compute. reflexivity. Qed.

Example sub_is_greedy :
  Re.sub (str "Login (2) (email: xxx.com, password: 123456)") = str "Login "
  /\ Re.sub (str "a)(") = str "a)("
  /\ Re.sub (str "(()") = [].
Proof. vm_compute. repeat split. Qed.

Example extract_english :
  extract_shared_step_name (str "  Shared step: Login") = str " Login".
Proof. vm_compute. reflexivity. Qed.

Example extract_japanese :
  extract_shared_step_name
    ([0x5171; 0x6709; 0x30b9; 0x30c6; 0x30c3; 0x30d7; 0x3a] ++ str " Login")
  = str " Login".
Proof. vm_compute. reflexivity. Qed.

Example extract_leaf : extract_shared_step_name (str "Click submit") = [].
Proof. vm_compute. reflexivity. Qed.

(** A marker with nothing after it yields the empty name: such a line
    is a leaf for the expander and for the counter. *)
Example extract_marker_alone : extract_shared_step_name (str "Shared step:") = [].
Proof. vm_compute. reflexivity. Qed.

Example str_of_int_samples :
  str_of_int 0 = str "0" /\ str_of_int 42 = str "42" /\ str_of_int (-7) = str "-7".
Proof. vm_compute. repeat split. Qed.

(** * Facts about the pattern and the candidates *)

Lemma sub_from_length k s : (length (Re.sub_from k s) <= length s)%nat.
Proof.
  revert k. induction s as [|c r IH]; intros k; [simpl; lia|].
  cbn [Re.sub_from]. destruct k as [|k].
  - destruct (Re.match_here (c :: r)) as [n|]; cbn [length].
    + specialize (IH (pred n)). lia.
    + specialize (IH O). lia.
  - specialize (IH k). cbn [length]. lia.
Qed.

(** A round of the candidate loop shortens the text. *)
Lemma search_sub_shorter s :
  Re.search s = true -> (length (Re.sub s) < length s)%nat.
Proof.
  unfold Re.sub. induction s as [|c r IH]; [discriminate|].
  cbn [Re.search Re.sub_from].
  destruct (Re.match_here (c :: r)) as [n|]; intros H; cbn [length].
  - pose proof (sub_from_length (pred n) r). lia.
  - specialize (IH H). lia.
Qed.

(** The bound on the rounds is never the reason the loop stops. *)
Lemma candidate_loop_enough fuel s :
  (length s <= fuel)%nat -> candidate_loop (S fuel) s = candidate_loop fuel s.
Proof.
  revert s. induction fuel as [|fuel IH]; intros s Hlen.
  - destruct s; [reflexivity | simpl in Hlen; lia].
  - cbn [candidate_loop]. destruct (Re.search s) eqn:Hs; [|reflexivity].
    f_equal. apply (IH (Re.sub s)).
    apply search_sub_shorter in Hs. lia.
Qed.

Lemma candidate_loop_stable extra s :
  candidate_loop (extra + length s) s = candidate_loop (length s) s.
Proof.
  induction extra as [|extra IH]; [reflexivity|].
  simpl. rewrite <- IH. apply candidate_loop_enough. lia.
Qed.

(** On a text without a line feed a match runs to the end of the
    text. *)
Lemma dot_star_close_whole r n :
  no_lf r -> Re.dot_star_close r = Some n -> n = length r.
Proof.
  intros H. revert n. induction H as [|c r Hc Hr IH]; intros n; [discriminate|].
  cbn [Re.dot_star_close]. apply N.eqb_neq in Hc. rewrite Hc.
  destruct (Re.dot_star_close r) as [k|].
  - intros [= <-]. now rewrite (IH k eq_refl).
  - destruct (c =? RPAREN); [|discriminate]. cbn [andb].
    destruct r as [|d r']; [now intros [= <-]|].
    destruct r' as [|e r'']; [|discriminate].
    cbn [Re.at_dollar]. inversion Hr as [|? ? Hd _]; subst.
    apply N.eqb_neq in Hd. rewrite Hd. discriminate.
Qed.

(** A match in progress that covers the rest of the text leaves
    nothing. *)
Lemma sub_from_all k s : (length s <= k)%nat -> Re.sub_from k s = [].
Proof.
  revert k. induction s as [|c r IH]; intros k Hk; [reflexivity|].
  cbn [length] in Hk. destruct k as [|k]; [lia|].
  cbn [Re.sub_from]. apply IH. lia.
Qed.

(** Once no match starts at the first parenthesis, none starts later. *)
Lemma dot_star_close_none_tail c r :
  no_lf (c :: r) -> Re.dot_star_close (c :: r) = None -> Re.dot_star_close r = None.
Proof.
  intros H. inversion H as [|? ? Hc _]; subst. cbn [Re.dot_star_close].
  apply N.eqb_neq in Hc. rewrite Hc.
  destruct (Re.dot_star_close r); [discriminate | reflexivity].
Qed.

Lemma no_match_later r :
  no_lf r -> Re.dot_star_close r = None ->
  Re.search r = false /\ Re.sub_from 0 r = r.
Proof.
  induction r as [|c r IH]; intros H Hn; [split; reflexivity|].
  pose proof (dot_star_close_none_tail c r H Hn) as Ht.
  inversion H as [|? ? Hc Hr]; subst.
  destruct (IH Hr Ht) as [IH1 IH2].
  cbn [Re.search Re.sub_from]. unfold Re.match_here.
  destruct (c =? LPAREN); [rewrite Ht; cbn|]; now rewrite IH1, IH2.
Qed.

(** One round either finds no match or cuts the text at its first
    opening parenthesis. *)
Lemma sub_cuts_at_first_paren s :
  no_lf s ->
  (Re.search s = false /\ Re.sub s = s)
  \/ (Re.search s = true /\ Re.sub s = before_paren s).
Proof.
  unfold Re.sub. induction 1 as [|c r Hc Hr IH]; [left; split; reflexivity|].
  cbn [Re.search Re.sub_from before_paren]. unfold Re.match_here.
  destruct (c =? LPAREN) eqn:Hp.
  - destruct (Re.dot_star_close r) as [n|] eqn:Hd; cbn.
    + right. split; [reflexivity|]. apply sub_from_all.
      apply dot_star_close_whole in Hd; [lia | exact Hr].
    + left. destruct (no_match_later r Hr Hd) as [-> ->]. now split.
  - destruct IH as [[-> ->] | [-> ->]]; [left | right]; now split.
Qed.

Lemma before_paren_no_match s :
  no_lf s -> Re.search (before_paren s) = false.
Proof.
  induction 1 as [|c r Hc Hr IH]; [reflexivity|].
  cbn [before_paren]. destruct (c =? LPAREN) eqn:Hp; [reflexivity|].
  cbn [Re.search]. unfold Re.match_here. now rewrite Hp.
Qed.

(** Hence at most one candidate follows the name itself. *)
Lemma candidates_at_most_two name :
  no_lf name ->
  shared_step_name_candidate_iterator name = [strip name]
  \/ shared_step_name_candidate_iterator name
     = [strip name; strip (before_paren name)].
Proof.
  intros H. unfold shared_step_name_candidate_iterator.
  destruct (sub_cuts_at_first_paren name H) as [[Hs He] | [Hs He]].
  - left. f_equal. destruct (length name); cbn [candidate_loop]; [reflexivity|].
    now rewrite Hs.
  - right. f_equal.
    destruct name as [|c r]; [discriminate|].
    cbn [length candidate_loop]. rewrite Hs, He. f_equal.
    destruct (length r); cbn [candidate_loop]; [reflexivity|].
    now rewrite before_paren_no_match.
Qed.

(** * Facts about the expander *)

Lemma expand_candidates_first_known expand candidates m indent :
  expand_candidates expand candidates m indent
  = match first_known candidates m with
    | None => Some []
    | Some shared_step =>
        (fun text => textwrap_indent text (spaces indent))
          <$> expand (human_readable_steps shared_step)
    end.
Proof.
  induction candidates as [|c cs IH]; simpl; [reflexivity|].
  destruct (m !! c); [reflexivity | exact IH].
Qed.

Lemma expand_shared_step_resolve depth shared_step_name m indent :
  expand_shared_step depth shared_step_name m indent
  = match resolve shared_step_name m with
    | None => Some []
    | Some shared_step =>
        (fun text => textwrap_indent text (spaces indent))
          <$> human_readable_steps_with_shared_steps_expanded depth
                (human_readable_steps shared_step) m
    end.
Proof. apply expand_candidates_first_known. Qed.

(** One round of the loop over the steps, by the kind of line. *)
Lemma expand_steps_leaf expand step rest m res :
  extract_shared_step_name step = [] ->
  expand_steps expand (step :: rest) m res
  = expand_steps expand rest m (res ++ step ++ [LF]).
Proof. intros H. simpl. now rewrite H. Qed.

Lemma expand_steps_reference expand step rest m res :
  extract_shared_step_name step <> [] ->
  expand_steps expand (step :: rest) m res
  = match expand_candidates expand
            (shared_step_name_candidate_iterator (extract_shared_step_name step))
            m (2 + leading_whitespace step) with
    | None => None
    | Some expansion =>
        expand_steps expand rest m ((res ++ step ++ [LF]) ++ expansion)
    end.
Proof.
  intros H. simpl. destruct (extract_shared_step_name step) eqn:E; [congruence|].
  unfold leading_whitespace.
  replace (S (S (length step)) - length (lstrip step))%nat
    with (S (S (length step - length (lstrip step))))%nat; [reflexivity|].
  assert (length (lstrip step) <= length step)%nat; [|lia].
  clear. induction step as [|c r IH]; simpl; [lia|].
  destruct (isspace c); simpl; lia.
Qed.

(** The result of the loop is the text built so far followed by lines. *)
Lemma expand_steps_lines expand steps m res out :
  (forall s o, expand s = Some o ->
               exists ls, Forall is_line ls /\ o = join_lines ls) ->
  Forall is_line steps ->
  expand_steps expand steps m res = Some out ->
  exists ls, Forall is_line ls /\ out = res ++ join_lines ls
             /\ (steps <> [] -> ls <> []).
Proof.
  intros Hexp Hsteps. revert res.
  induction Hsteps as [|step rest Hstep Hrest IH]; intros res H.
  - injection H as <-. exists []. rewrite app_nil_r. repeat split; auto.
  - destruct (extract_shared_step_name step) eqn:E.
    + rewrite expand_steps_leaf in H by assumption.
      destruct (IH _ H) as (ls & Hls & -> & _).
      exists (step :: ls). split; [constructor; auto|].
      split; [|discriminate].
      rewrite join_lines_cons, <- !app_assoc. reflexivity.
    + rewrite expand_steps_reference in H by congruence.
      rewrite expand_candidates_first_known in H.
      destruct (first_known _ m) as [g|].
      * destruct (expand (human_readable_steps g)) as [o|] eqn:Ho; [|discriminate].
        simpl in H. destruct (Hexp _ _ Ho) as (ls1 & Hls1 & ->).
        rewrite textwrap_indent_join in H by assumption.
        destruct (IH _ H) as (ls & Hls & -> & _).
        exists (step :: List.map (indent_line (spaces (2 + leading_whitespace step))) ls1 ++ ls).
        split; [|split; [|discriminate]].
        -- constructor; auto. apply Forall_app. split; auto.
           now apply indent_lines_are_lines.
        -- rewrite join_lines_cons, join_lines_app, <- !app_assoc. reflexivity.
      * destruct (IH _ H) as (ls & Hls & -> & _).
        exists (step :: ls). split; [constructor; auto|].
        split; [|discriminate].
        rewrite join_lines_cons, app_nil_r, <- !app_assoc. reflexivity.
Qed.

(** Every result of the expander is a sequence of lines, each followed
    by one line feed, and it has a line when the input has one. *)
Lemma expanded_lines depth steps m out :
  human_readable_steps_with_shared_steps_expanded depth steps m = Some out ->
  exists ls, Forall is_line ls /\ out = join_lines ls
             /\ (steps <> [] -> ls <> []).
Proof.
  revert steps out. induction depth as [|depth IH]; intros steps out H;
    [discriminate|].
  simpl in H. apply expand_steps_lines in H.
  - destruct H as (ls & Hls & -> & Hne). exists ls. repeat split; auto.
    intros Hs. apply Hne. now rewrite splitlines_nil.
  - intros s o Ho. destruct (IH _ _ Ho) as (ls & ? & ? & _). eauto.
  - apply splitlines_is_line.
Qed.

(** A deeper recursion allowance does not change a result. *)
Lemma expand_steps_mono (e1 e2 : pystr -> option pystr) steps m res out :
  (forall s o, e1 s = Some o -> e2 s = Some o) ->
  expand_steps e1 steps m res = Some out ->
  expand_steps e2 steps m res = Some out.
Proof.
  intros He. revert res. induction steps as [|step rest IH]; intros res H;
    [exact H|].
  destruct (extract_shared_step_name step) eqn:E.
  - rewrite expand_steps_leaf in * by assumption. auto.
  - rewrite expand_steps_reference in * by congruence.
    rewrite expand_candidates_first_known in *.
    destruct (first_known _ m) as [g|]; [|auto].
    destruct (e1 (human_readable_steps g)) as [o|] eqn:Ho; [|discriminate].
    rewrite (He _ _ Ho). simpl in *. auto.
Qed.

Lemma expanded_mono depth steps m out :
  human_readable_steps_with_shared_steps_expanded depth steps m = Some out ->
  human_readable_steps_with_shared_steps_expanded (S depth) steps m = Some out.
Proof.
  revert steps out. induction depth as [|depth IH]; intros steps out H;
    [discriminate|].
  cbn [human_readable_steps_with_shared_steps_expanded] in *.
  eapply expand_steps_mono; [|exact H]. intros s o. apply IH.
Qed.

(** Without a reference line the loop only copies the lines. *)
Lemma expand_steps_all_leaves expand steps m res :
  Forall (fun step => extract_shared_step_name step = []) steps ->
  expand_steps expand steps m res = Some (res ++ join_lines steps).
Proof.
  intros H. revert res. induction H as [|step rest Hs Hr IH]; intros res.
  - simpl. now rewrite app_nil_r.
  - rewrite expand_steps_leaf, IH, join_lines_cons, <- !app_assoc by assumption.
    reflexivity.
Qed.

Lemma expanded_mono_le depth depth' steps m out :
  (depth <= depth')%nat ->
  human_readable_steps_with_shared_steps_expanded depth steps m = Some out ->
  human_readable_steps_with_shared_steps_expanded depth' steps m = Some out.
Proof.
  induction 1 as [|depth' Hle IH]; [auto|].
  intros H. apply expanded_mono. auto.
Qed.

(** A text that is one non-empty line splits into itself. *)
Lemma splitlines_single l : is_line l -> l <> [] -> splitlines l = [l].
Proof.
  unfold splitlines. induction 1 as [|c l Hc Hl IH]; [congruence|].
  intros _. cbn [splitlines_gen]. rewrite Hc.
  destruct l as [|d l']; [reflexivity|]. now rewrite IH.
Qed.

(** * The claims *)

(** ** Candidates and resolution *)

(** C1 (as the code runs it). The pattern is greedy and is matched from
    the first opening parenthesis, so one round removes every trailing
    group at once: for "Login (2) (email: xxx.com, password: 123456)" the
    candidates are the full name and then "Login"; "Login (2)" is never
    tried. For every name without a line feed the candidates are the
    stripped name and at most one more, the stripped text before the
    first opening parenthesis. So in every map that holds "Login" (and
    not the full reference text as a key), the reference text
    "Login (2) (email: a@b.com)" resolves to the group "Login", also
    when the map holds "Login (2)". *)
Theorem candidates_skip_intermediate_group :
  shared_step_name_candidate_iterator
    (str "Login (2) (email: xxx.com, password: 123456)")
  = [ str "Login (2) (email: xxx.com, password: 123456)"; str "Login" ]
  /\ (forall name : pystr,
         no_lf name ->
         shared_step_name_candidate_iterator name = [strip name]
         \/ shared_step_name_candidate_iterator name
            = [strip name; strip (before_paren name)])
  /\ (forall (m : name_map) (login : record),
         m !! str "Login (2) (email: a@b.com)" = None ->
         m !! str "Login" = Some login ->
         resolve (str "Login (2) (email: a@b.com)") m = Some login)
  /\ both_logins !! str "Login (2)"
     = Some (group 2 (str "Login (2)") (str "Second login"))
  /\ expand_shared_step 1 (str "Login (2) (email: a@b.com)") both_logins 2
     = Some (str "  First login" ++ [LF]).
Proof.
  split; [vm_compute; reflexivity|].
  split; [exact candidates_at_most_two|].
  split; [|split; vm_compute; reflexivity].
  intros m login Hfull Hlogin. unfold resolve.
  replace (shared_step_name_candidate_iterator (str "Login (2) (email: a@b.com)"))
    with [str "Login (2) (email: a@b.com)"; str "Login"]
    by (vm_compute; reflexivity).
  cbn [first_known]. now rewrite Hfull, Hlogin.
Qed.

Lemma candidates_skip_intermediate_group_witness :
  resolve (str "Login (2) (email: a@b.com)") both_logins
  = Some (group 1 (str "Login") (str "First login")).
Proof.
  apply (proj1 (proj2 (proj2 candidates_skip_intermediate_group)));
    vm_compute; reflexivity.
Defined.

(** C2. When the map holds the group "Login" and nothing else, the
    reference text "Login (2)" resolves to that group: the candidate
    "Login (2)" is not a key, the next one, "Login", is, and
    [expand_shared_step] returns that group's expanded steps,
    indented. *)
Theorem fallback_to_bare_name (login : record) (depth indent : nat) :
  shared_step_name_candidate_iterator (str "Login (2)")
  = [ str "Login (2)"; str "Login" ]
  /\ resolve (str "Login (2)") {[ str "Login" := login ]} = Some login
  /\ expand_shared_step depth (str "Login (2)") {[ str "Login" := login ]} indent
     = (fun text => textwrap_indent text (spaces indent))
         <$> human_readable_steps_with_shared_steps_expanded depth
               (human_readable_steps login) {[ str "Login" := login ]}.
Proof.
  assert (Hc : shared_step_name_candidate_iterator (str "Login (2)")
               = [ str "Login (2)"; str "Login" ]) by (vm_compute; reflexivity).
  assert (Hr : resolve (str "Login (2)") {[ str "Login" := login ]} = Some login).
  { unfold resolve. rewrite Hc. cbn [first_known].
    rewrite lookup_singleton_ne by (vm_compute; discriminate).
    now rewrite lookup_singleton_eq. }
  split; [exact Hc|]. split; [exact Hr|].
  now rewrite expand_shared_step_resolve, Hr.
Qed.

(** ** Expansion *)

(** C3, the claim as stated, at the one-line block "Click submit": the
    block has no reference line, yet the expander returns it with a
    line feed added, whatever the recursion allowance and never the
    block itself. *)
Lemma identity_fails_without_final_newline :
  Forall (fun step => extract_shared_step_name step = [])
         (splitlines (str "Click submit"))
  /\ human_readable_steps_with_shared_steps_expanded 1 (str "Click submit") ∅
     = Some (str "Click submit" ++ [LF])
  /\ ~ (exists depth,
          human_readable_steps_with_shared_steps_expanded depth
            (str "Click submit") ∅ = Some (str "Click submit")).
Proof.
  split; [vm_compute; repeat constructor|].
  split; [vm_compute; reflexivity|].
  intros [depth H]. destruct depth as [|depth]; [discriminate|].
  cbn [human_readable_steps_with_shared_steps_expanded] in H.
  rewrite expand_steps_all_leaves in H by (vm_compute; repeat constructor).
  vm_compute in H. discriminate.
Qed.

(** C3 (amended). For every block without a reference line and every
    map, the expander returns the lines of the block, in order, each
    followed by one line feed. The result has the lines of the input,
    and it is the input itself exactly when the input already has that
    shape. *)
Theorem expansion_without_references (depth : nat) (block : pystr) (m : name_map) :
  Forall (fun step => extract_shared_step_name step = []) (splitlines block) ->
  human_readable_steps_with_shared_steps_expanded (S depth) block m
  = Some (join_lines (splitlines block))
  /\ splitlines (join_lines (splitlines block)) = splitlines block
  /\ (human_readable_steps_with_shared_steps_expanded (S depth) block m
      = Some block <-> block = join_lines (splitlines block)).
Proof.
  intros H.
  assert (E : human_readable_steps_with_shared_steps_expanded (S depth) block m
              = Some (join_lines (splitlines block))).
  { cbn [human_readable_steps_with_shared_steps_expanded].
    now rewrite expand_steps_all_leaves. }
  split; [exact E|]. split.
  - apply splitlines_join, splitlines_is_line.
  - rewrite E. split; [intros [= ->] | intros <-]; reflexivity.
Qed.

Lemma expansion_without_references_witness :
  human_readable_steps_with_shared_steps_expanded 1 (str "Click submit") ∅
  = Some (join_lines (splitlines (str "Click submit"))).
Proof.
  apply (expansion_without_references 0 (str "Click submit") ∅).
  vm_compute. repeat constructor.
Defined.

(** C4, the claim as stated: with "Login" mapped to a group whose steps
    are "Enter username\nEnter password", the block
    "Shared step: Login\nClick submit" does not expand to the expected
    text of the scenario, which has no final line feed. *)
Lemma end_to_end_output_differs :
  ~ (exists depth,
       human_readable_steps_with_shared_steps_expanded depth login_input
         {[ str "Login" := group 1 (str "Login") login_steps ]}
       = Some login_expected).
Proof.
  intros [depth H].
  apply (expanded_mono_le depth (2 + depth)) in H; [|lia].
  assert (E : human_readable_steps_with_shared_steps_expanded 2 login_input
                {[ str "Login" := group 1 (str "Login") login_steps ]}
              = Some (login_expected ++ [LF])) by (vm_compute; reflexivity).
  apply (expanded_mono_le 2 (2 + depth)) in E; [|lia].
  rewrite E in H. vm_compute in H. discriminate.
Qed.

(** C4 (amended). With "Login" mapped to a group whose steps are
    "Enter username\nEnter password", the block
    "Shared step: Login\nClick submit" expands to
    "Shared step: Login\n  Enter username\n  Enter password\nClick submit\n",
    with a line feed after the last line, and the step count of that
    text is 3. *)
Theorem end_to_end_scenario (login : record) (depth : nat) :
  human_readable_steps login = login_steps ->
  human_readable_steps_with_shared_steps_expanded (2 + depth) login_input
    {[ str "Login" := login ]}
  = Some (login_expected ++ [LF])
  /\ calculate_total_step_count (login_expected ++ [LF]) = 3%nat.
Proof.
  intros Hsteps. split; [|vm_compute; reflexivity].
  apply (expanded_mono_le 2); [lia|].
  cbn [human_readable_steps_with_shared_steps_expanded].
  replace (splitlines login_input)
    with [str "Shared step: Login"; str "Click submit"]
    by (vm_compute; reflexivity).
  rewrite expand_steps_reference by (vm_compute; discriminate).
  rewrite expand_candidates_first_known.
  replace (shared_step_name_candidate_iterator
             (extract_shared_step_name (str "Shared step: Login")))
    with [str "Login"] by (vm_compute; reflexivity).
  cbn [first_known]. rewrite lookup_singleton_eq, Hsteps.
  vm_compute. reflexivity.
Qed.

Lemma end_to_end_scenario_witness :
  human_readable_steps_with_shared_steps_expanded 2 login_input
    {[ str "Login" := group 1 (str "Login") login_steps ]}
  = Some (login_expected ++ [LF])
  /\ calculate_total_step_count (login_expected ++ [LF]) = 3%nat.
Proof.
  apply (end_to_end_scenario (group 1 (str "Login") login_steps) 0).
  reflexivity.
Defined.

(** ** Unresolved references *)

(** C5, the claim as stated: with an empty map the block
    "Shared step: Ghost\nDo thing" expands to its two lines, and the
    step count of the result is 1, not 2: the unresolved line is still
    a reference line for the counter. *)
Lemma unresolved_reference_count_is_not_two :
  human_readable_steps_with_shared_steps_expanded 1 ghost_input ∅
  = Some (ghost_input ++ [LF])
  /\ calculate_total_step_count (ghost_input ++ [LF]) <> 2%nat.
Proof. split; [vm_compute; reflexivity | vm_compute; discriminate]. Qed.

(** C5 (amended). A reference line whose name resolves to no group is
    copied to the output with nothing appended, and the expansion goes
    on with the next line; a block all of whose reference lines are
    unresolved expands, without failure, to its own lines. With an
    empty map, "Shared step: Ghost\nDo thing" expands to
    "Shared step: Ghost\nDo thing\n", and the step count of that is
    1. *)
Theorem unresolved_reference_left_verbatim :
  (forall (expand : pystr -> option pystr) (step : pystr) (rest : list pystr)
          (m : name_map) (res : pystr),
      extract_shared_step_name step <> [] ->
      resolve (extract_shared_step_name step) m = None ->
      expand_steps expand (step :: rest) m res
      = expand_steps expand rest m (res ++ step ++ [LF]))
  /\ (forall (depth : nat) (block : pystr) (m : name_map),
         Forall (fun step =>
                   extract_shared_step_name step <> [] ->
                   resolve (extract_shared_step_name step) m = None)
                (splitlines block) ->
         human_readable_steps_with_shared_steps_expanded (S depth) block m
         = Some (join_lines (splitlines block)))
  /\ (forall depth : nat,
         human_readable_steps_with_shared_steps_expanded (S depth) ghost_input ∅
         = Some (ghost_input ++ [LF]))
  /\ calculate_total_step_count (ghost_input ++ [LF]) = 1%nat.
Proof.
  assert (Hline : forall expand step rest (m : name_map) res,
             (extract_shared_step_name step <> [] ->
              resolve (extract_shared_step_name step) m = None) ->
             expand_steps expand (step :: rest) m res
             = expand_steps expand rest m (res ++ step ++ [LF])).
  { intros expand step rest m res Hr.
    destruct (extract_shared_step_name step) eqn:E.
    - now apply expand_steps_leaf.
    - rewrite expand_steps_reference by congruence.
      rewrite expand_candidates_first_known. unfold resolve in Hr.
      rewrite E, Hr by discriminate. now rewrite app_nil_r. }
  assert (Hblock : forall depth block (m : name_map),
             Forall (fun step =>
                       extract_shared_step_name step <> [] ->
                       resolve (extract_shared_step_name step) m = None)
                    (splitlines block) ->
             human_readable_steps_with_shared_steps_expanded (S depth) block m
             = Some (join_lines (splitlines block))).
  { intros depth block m H.
    cbn [human_readable_steps_with_shared_steps_expanded].
    change (join_lines (splitlines block))
      with ([] ++ join_lines (splitlines block)).
    generalize (@nil N) as res.
    induction H as [|step rest Hs Hr IH]; intros res.
    - simpl. now rewrite app_nil_r.
    - rewrite Hline, IH, join_lines_cons, <- !app_assoc by assumption.
      reflexivity. }
  split; [intros; now apply Hline|].
  split; [exact Hblock|].
  split; [|vm_compute; reflexivity].
  intros depth. rewrite Hblock; [vm_compute; reflexivity|].
  repeat constructor.
Qed.

Lemma unresolved_reference_left_verbatim_witness :
  expand_steps (fun _ => None) [str "Shared step: Ghost"; str "Do thing"] ∅ []
  = expand_steps (fun _ => None) [str "Do thing"] ∅
      ([] ++ str "Shared step: Ghost" ++ [LF]).
Proof.
  apply (proj1 unresolved_reference_left_verbatim);
    [vm_compute; discriminate | vm_compute; reflexivity].
Defined.

(** ** Indentation *)

(** C6, the claim as stated: a group whose steps hold an empty line.
    The reference line "Shared step: Setup" has no leading whitespace;
    the expanded steps of the group are "Open page", "" and
    "Close page"; the empty line is appended with no space in front,
    not with two. *)
Lemma blank_line_is_not_indented :
  human_readable_steps_with_shared_steps_expanded 1 setup_steps
    {[ str "Setup" := group 1 (str "Setup") setup_steps ]}
  = Some (setup_steps ++ [LF])
  /\ human_readable_steps_with_shared_steps_expanded 2 (str "Shared step: Setup")
       {[ str "Setup" := group 1 (str "Setup") setup_steps ]}
     = Some (str "Shared step: Setup" ++ [LF] ++ str "  Open page" ++ [LF; LF]
               ++ str "  Close page" ++ [LF])
  /\ str "Shared step: Setup" ++ [LF] ++ str "  Open page" ++ [LF; LF]
       ++ str "  Close page" ++ [LF]
     <> str "Shared step: Setup" ++ [LF]
          ++ indent_every_line (2 + leading_whitespace (str "Shared step: Setup"))
               (setup_steps ++ [LF]).
Proof.
  split; [vm_compute; reflexivity|].
  split; [vm_compute; reflexivity | vm_compute; discriminate].
Qed.

(** C6 (amended). When a reference line resolves to a group, the text
    appended right after the line is the recursively expanded steps of
    the group, line by line, where every line that does not consist
    solely of whitespace has exactly 2 + (the number of leading
    whitespace code points of the reference line) spaces put in front,
    and a line of whitespace only (an empty line too) is appended as it
    is. *)
Theorem expansion_indents_nonblank_lines
  (depth : nat) (step : pystr) (rest : list pystr) (m : name_map)
  (res : pystr) (shared_step : record) (sub : pystr) :
  extract_shared_step_name step <> [] ->
  resolve (extract_shared_step_name step) m = Some shared_step ->
  human_readable_steps_with_shared_steps_expanded depth
    (human_readable_steps shared_step) m = Some sub ->
  let expand := fun steps =>
    human_readable_steps_with_shared_steps_expanded depth steps m in
  let appended :=
    join_lines
      (List.map (indent_line (spaces (2 + leading_whitespace step)))
                (splitlines sub)) in
  sub = join_lines (splitlines sub)
  /\ expand_steps expand (step :: rest) m res
     = expand_steps expand rest m ((res ++ step ++ [LF]) ++ appended)
  /\ (is_line step ->
      human_readable_steps_with_shared_steps_expanded (S depth) step m
      = Some (step ++ [LF] ++ appended)).
Proof.
  intros Hname Hres Hsub expand appended.
  destruct (expanded_lines _ _ _ _ Hsub) as (ls & Hls & -> & _).
  assert (Happ : textwrap_indent (join_lines ls)
                   (spaces (2 + leading_whitespace step)) = appended).
  { subst appended. rewrite splitlines_join by assumption.
    now apply textwrap_indent_join. }
  assert (Hstep : forall rest' res',
             expand_steps expand (step :: rest') m res'
             = expand_steps expand rest' m ((res' ++ step ++ [LF]) ++ appended)).
  { intros rest' res'. rewrite expand_steps_reference by assumption.
    rewrite expand_candidates_first_known. unfold resolve in Hres.
    rewrite Hres. subst expand. cbv beta. rewrite Hsub.
    unfold fmap, option_fmap, option_map. cbv beta.
    now rewrite Happ. }
  split; [now rewrite splitlines_join|].
  split; [apply Hstep|].
  intros Hline. cbn [human_readable_steps_with_shared_steps_expanded].
  rewrite splitlines_single; [|assumption|].
  - fold expand. rewrite Hstep. simpl. now rewrite <- app_assoc.
  - intros ->. apply Hname. reflexivity.
Qed.

Lemma expansion_indents_nonblank_lines_witness :
  human_readable_steps_with_shared_steps_expanded 2 (str "  Shared step: Setup")
    {[ str "Setup" := group 1 (str "Setup") setup_steps ]}
  = Some (str "  Shared step: Setup" ++ [LF] ++ str "    Open page" ++ [LF; LF]
            ++ str "    Close page" ++ [LF]).
Proof.
  apply (expansion_indents_nonblank_lines 1 (str "  Shared step: Setup") []
           {[ str "Setup" := group 1 (str "Setup") setup_steps ]} []
           (group 1 (str "Setup") setup_steps) (setup_steps ++ [LF]));
    [vm_compute; discriminate | vm_compute; reflexivity
    | vm_compute; reflexivity | vm_compute; repeat constructor].
Defined.

(** ** The step counter *)

Lemma replace1_prefix s p :
  startswith s p = true -> replace1 s p [] = drop (length p) s.
Proof. intros H. destruct s; cbn [replace1]; now rewrite H. Qed.

Lemma startswith_head c s a p : startswith (c :: s) (a :: p) = true -> a = c.
Proof.
  cbn [startswith]. intros H. apply andb_true_iff in H as [H _].
  now apply N.eqb_eq in H.
Qed.

(** A marker prefix with something after it yields a name. *)
Lemma extract_marker_nonempty step prefix :
  In prefix prefixes ->
  startswith (strip step) prefix = true ->
  (length prefix < length (strip step))%nat ->
  extract_shared_step_name step <> [].
Proof.
  unfold extract_shared_step_name. generalize (strip step) as s.
  intros s Hin Hp Hlen.
  assert (Hdrop : forall p : pystr,
             (length p < length s)%nat -> drop (length p) s <> []).
  { intros p Hl E. apply (f_equal (@length N)) in E.
    rewrite length_drop in E. simpl in E. lia. }
  destruct Hin as [<- | [<- | []]]; cbn [prefixes extract_loop].
  - rewrite Hp, replace1_prefix by assumption. now apply Hdrop.
  - destruct (startswith s (str "Shared step:")) eqn:H1.
    + destruct s as [|c s']; [discriminate|]. exfalso.
      apply (startswith_head c s' 0x5171) in Hp.
      apply (startswith_head c s' 83 (str "hared step:")) in H1.
      congruence.
    + rewrite Hp, replace1_prefix by assumption. now apply Hdrop.
Qed.

(** C7. For every block the step count is the number of lines on which
    the extractor yields the empty string; the lines on which it yields
    a name (the reference lines) make up the rest of the lines, and a
    line that is a marker prefix with something after it is one of
    them; for a block with no reference line the count is the number of
    lines of the block. *)
Theorem step_count_counts_leaf_lines (block : pystr) :
  calculate_total_step_count block = count_leaf_steps (splitlines block)
  /\ (calculate_total_step_count block
      + length (reference_lines (splitlines block))
      = length (splitlines block))%nat
  /\ (forall step prefix,
         In prefix prefixes ->
         startswith (strip step) prefix = true ->
         (length prefix < length (strip step))%nat ->
         is_leaf step = false)
  /\ (Forall (fun step => extract_shared_step_name step = []) (splitlines block) ->
      calculate_total_step_count block = length (splitlines block)).
Proof.
  unfold calculate_total_step_count, reference_lines.
  generalize (splitlines block) as lines. intros lines.
  repeat split.
  - induction lines as [|step rest IH]; [reflexivity|].
    cbn [List.filter count_leaf_steps]. unfold is_leaf at 1.
    destruct (extract_shared_step_name step); cbn [length]; now rewrite IH.
  - induction lines as [|step rest IH]; [reflexivity|].
    cbn [List.filter]. destruct (is_leaf step); cbn [negb length]; lia.
  - intros step prefix Hin Hp Hlen. unfold is_leaf.
    pose proof (extract_marker_nonempty step prefix Hin Hp Hlen).
    destruct (extract_shared_step_name step); congruence.
  - induction 1 as [|step rest Hs Hr IH]; [reflexivity|].
    cbn [List.filter]. unfold is_leaf at 1. rewrite Hs. cbn [length].
    now rewrite IH.
Qed.

Lemma step_count_counts_leaf_lines_witness :
  calculate_total_step_count (str "Click submit")
  = length (splitlines (str "Click submit")).
Proof.
  apply (step_count_counts_leaf_lines (str "Click submit")).
  vm_compute. repeat constructor.
Defined.

(** ** Line endings of the output *)

Lemma join_lines_last ls : ls <> [] -> last (join_lines ls) = Some LF.
Proof.
  destruct ls as [|l ls _] using rev_ind; [congruence|]. intros _.
  rewrite join_lines_app, join_lines_one, app_assoc. apply last_snoc.
Qed.

Lemma join_lines_no_cr ls :
  Forall is_line ls -> Forall (fun c => c <> CR) (join_lines ls).
Proof.
  induction 1 as [|l ls Hl Hls IH]; [constructor|].
  rewrite join_lines_cons. apply Forall_app. split.
  - eapply Forall_impl; [exact Hl|]. intros c Hc ->. discriminate.
  - constructor; [discriminate | exact IH].
Qed.

(** C10, the claim as stated, at the empty input: it does not end with
    a line feed, and it is returned as it is. *)
Lemma empty_input_is_returned_unchanged :
  last (@nil N) <> Some LF
  /\ human_readable_steps_with_shared_steps_expanded 1 [] ∅ = Some [].
Proof. split; [discriminate | reflexivity]. Qed.

(** C10 (amended). For every input and every map, a result of the
    expander is its own lines written out each with exactly one line
    feed after it: it is empty when the input has no line and ends with
    a line feed otherwise; a non-empty input that does not end with a
    line feed is never returned unchanged, and no carriage return is
    left in the output. *)
Theorem output_is_newline_terminated_lines
  (depth : nat) (block : pystr) (m : name_map) (out : pystr) :
  human_readable_steps_with_shared_steps_expanded depth block m = Some out ->
  out = join_lines (splitlines out)
  /\ (splitlines block = [] -> out = [])
  /\ (splitlines block <> [] -> last out = Some LF)
  /\ (block <> [] -> last block <> Some LF -> out <> block)
  /\ Forall (fun c => c <> CR) out.
Proof.
  intros H. destruct (expanded_lines _ _ _ _ H) as (ls & Hls & -> & Hne).
  split; [now rewrite splitlines_join|].
  split.
  { intros Hb. destruct depth as [|depth]; [discriminate|].
    cbn [human_readable_steps_with_shared_steps_expanded] in H.
    rewrite Hb in H. now injection H as <-. }
  split.
  { intros Hb. apply join_lines_last, Hne. intros ->. now apply Hb. }
  split.
  { intros Hb Hlast E. apply Hlast. rewrite <- E.
    now apply join_lines_last, Hne. }
  now apply join_lines_no_cr.
Qed.

Lemma output_is_newline_terminated_lines_witness :
  last (login_expected ++ [LF]) = Some LF.
Proof.
  apply (output_is_newline_terminated_lines 2 login_input
           {[ str "Login" := group 1 (str "Login") login_steps ]}
           (login_expected ++ [LF]));
    [vm_compute; reflexivity | vm_compute; discriminate].
Defined.

(** * Facts about the client *)

Section ServiceFacts.

Context {World : Type}.
Variable urlopen_page : request -> World -> urlopen_result (list record) * World.
Variable urlopen_record : request -> World -> urlopen_result record * World.

(** The loop and the protocol agree. *)
Lemma collect_pages_paged (get_page : Z -> M World (response (list record)))
  fuel all_items cursor w exit w' log :
  collect_pages fuel get_page all_items cursor w = (Some exit, w', log)
  <-> exists pages s,
        (length pages < fuel)%nat
        /\ paged get_page cursor w pages s w' log
        /\ exit = exit_for all_items pages s.
Proof.
  split.
  - revert all_items cursor w log.
    induction fuel as [|fuel IH]; intros all_items cursor w log H;
      [discriminate|].
    cbn [collect_pages] in H. unfold bind in H.
    destruct (get_page cursor w) as [[res w1] log1] eqn:Hpage.
    destruct res as [message | items].
    + injection H as <- <- <-. exists [], (Failure message).
      rewrite app_nil_r. repeat split; [simpl; lia|].
      now constructor.
    + destruct (last items) as [item|] eqn:Hlast.
      * destruct (collect_pages fuel get_page (all_items ++ items)
                    (number item + 1)%Z w1) as [[r w2] log2] eqn:Hrec.
        injection H as -> -> <-.
        destruct (IH _ _ _ _ Hrec) as (pages & s & Hlen & Hpaged & ->).
        exists (items :: pages), s. repeat split; [simpl; lia | |].
        -- econstructor; eauto.
        -- destruct s; simpl; [now rewrite <- app_assoc | reflexivity].
      * apply last_None in Hlast. subst items.
        injection H as <- <- <-. exists [], ZeroItems.
        rewrite app_nil_r. repeat split; [simpl; lia | now constructor |].
        simpl. now rewrite app_nil_r.
  - intros (pages & s & Hlen & Hpaged & ->).
    revert fuel all_items Hlen.
    induction Hpaged as [cursor w w' log Hp | cursor w w' log message Hp
                        | cursor w page item w1 log1 pages s w' log Hp Hl Hrest IH];
      intros fuel all_items Hlen;
      (destruct fuel as [|fuel]; [simpl in Hlen; lia|]);
      cbn [collect_pages]; unfold bind; rewrite Hp.
    + simpl. now rewrite !app_nil_r.
    + simpl. now rewrite app_nil_r.
    + rewrite Hl, (IH fuel (all_items ++ page)) by (simpl in Hlen; lia).
      destruct s; simpl; [now rewrite <- app_assoc | reflexivity].
Qed.

(** ** Pagination *)

(** C8. For every paged fetch [get_page], the collection loop, started
    as both bulk retrievals start it (cursor 1, nothing gathered), ends
    within [fuel] rounds exactly when the requests follow the paging
    protocol: the first request has cursor 1, every non-empty page is
    followed by a request with the number of its last item plus one,
    and the pages are gathered in order. The loop is left by [break],
    with the pages gathered, exactly when a request returns zero
    items; the only other way out is the [return] of a failed request,
    which leaves the whole function. The same holds of the two loops
    of the client with their list requests. *)
Theorem pagination_protocol
  (get_page : Z -> M World (response (list record)))
  (fuel : nat) (self : client) (organization_name project_name : pystr)
  (w : World) (exit : loop_exit) (w' : World) (log : list event) :
  (collect_pages fuel get_page [] 1%Z w = (Some exit, w', log)
   <-> exists pages s,
         (length pages < fuel)%nat
         /\ paged get_page 1%Z w pages s w' log
         /\ exit = match s with
                   | ZeroItems => Broke (concat pages)
                   | Failure message => Returned (Error message)
                   end)
  /\ (shared_steps_loop urlopen_page fuel self organization_name project_name w
      = (Some exit, w', log)
      <-> exists pages s,
            (length pages < fuel)%nat
            /\ paged (fun cursor =>
                        get_shared_steps urlopen_page self organization_name
                          project_name [(str "min_shared_step_number", cursor)])
                     1%Z w pages s w' log
            /\ exit = match s with
                      | ZeroItems => Broke (concat pages)
                      | Failure message => Returned (Error message)
                      end)
  /\ (test_cases_loop urlopen_page fuel self organization_name project_name w
      = (Some exit, w', log)
      <-> exists pages s,
            (length pages < fuel)%nat
            /\ paged (fun cursor =>
                        get_test_cases urlopen_page self organization_name
                          project_name [(str "min_test_case_number", cursor)])
                     1%Z w pages s w' log
            /\ exit = match s with
                      | ZeroItems => Broke (concat pages)
                      | Failure message => Returned (Error message)
                      end).
Proof.
  repeat split; try (intros H; apply collect_pages_paged in H; exact H);
    intros H; apply collect_pages_paged; exact H.
Qed.

(** ** Failed requests *)

Lemma clean_app l1 l2 : clean l1 -> clean l2 -> clean (l1 ++ l2).
Proof. unfold clean. intros. apply Forall_app; auto. Qed.

Lemma failed_last_app message l1 l2 :
  clean l1 -> failed_last message l2 -> failed_last message (l1 ++ l2).
Proof.
  intros H1 (earlier & url & -> & H2). exists (l1 ++ earlier), url.
  split; [now rewrite app_assoc | now apply clean_app].
Qed.

(** Sequencing keeps the discipline when the first part did not fail. *)
Lemma aborts_on_failure_app failure l1 l2 :
  aborts_on_failure None l1 -> aborts_on_failure failure l2 ->
  aborts_on_failure failure (l1 ++ l2).
Proof.
  intros [T1 C1] [T2 H2]. split; [apply Forall_app; auto|].
  destruct failure; [now apply failed_last_app | now apply clean_app].
Qed.

Lemma aborts_on_failure_nil : aborts_on_failure None [].
Proof. split; constructor. Qed.

Lemma make_api_request_aborts {A : Type}
  (urlopen : request -> World -> urlopen_result A * World)
  self url params w res w' log :
  _make_api_request urlopen self url params w = (res, w', log) ->
  aborts_on_failure (error_of res) log.
Proof.
  unfold _make_api_request.
  set (full := match params with [] => url | _ :: _ => _ end).
  destruct (urlopen _ w) as [[code reason | text | data] w1];
    intros [= <- <- <-]; cbn [error_of].
  - split.
    + constructor; [|constructor].
      exists (str_of_int code ++ str " - " ++ reason). reflexivity.
    + exists [], full. split; [reflexivity | constructor].
  - split.
    + constructor; [|constructor]. exists text. reflexivity.
    + exists [], full. split; [reflexivity | constructor].
  - split; repeat constructor.
Qed.

Lemma collect_pages_aborts (get_page : Z -> M World (response (list record)))
  fuel all_items cursor w exit w' log :
  (forall c w0 res w1 l, get_page c w0 = (res, w1, l) ->
                         aborts_on_failure (error_of res) l) ->
  collect_pages fuel get_page all_items cursor w = (exit, w', log) ->
  aborts_on_failure (error_of_exit exit) log
  /\ (forall data, exit <> Some (Returned (Data data))).
Proof.
  intros Hget. revert all_items cursor w log.
  induction fuel as [|fuel IH]; intros all_items cursor w log H.
  - injection H as <- <- <-. split; [apply aborts_on_failure_nil | discriminate].
  - cbn [collect_pages] in H. unfold bind in H.
    destruct (get_page cursor w) as [[res w1] log1] eqn:Hpage.
    apply Hget in Hpage. destruct res as [message | items].
    + injection H as <- <- <-. rewrite app_nil_r. split; [exact Hpage | discriminate].
    + destruct (last items) as [item|].
      * destruct (collect_pages fuel get_page (all_items ++ items)
                    (number item + 1)%Z w1) as [[r w2] log2] eqn:Hrec.
        injection H as -> -> <-. destruct (IH _ _ _ _ Hrec) as [Ha Hd].
        split; [now apply aborts_on_failure_app | exact Hd].
      * injection H as <- <- <-. rewrite app_nil_r. split; [exact Hpage | discriminate].
Qed.

Lemma fetch_each_aborts (get_item : Z -> M World (response record))
  numbers items w res w' log :
  (forall n w0 r w1 l, get_item n w0 = (r, w1, l) ->
                       aborts_on_failure (error_of r) l) ->
  fetch_each get_item numbers items w = (res, w', log) ->
  aborts_on_failure (error_of res) log.
Proof.
  intros Hget. revert items w log.
  induction numbers as [|n rest IH]; intros items w log H.
  - injection H as <- <- <-. apply aborts_on_failure_nil.
  - cbn [fetch_each] in H. unfold bind in H.
    destruct (get_item n w) as [[r w1] log1] eqn:Hitem.
    apply Hget in Hitem. destruct r as [message | data].
    + injection H as <- <- <-. now rewrite app_nil_r.
    + destruct (fetch_each get_item rest (items ++ [data]) w1)
        as [[r2 w2] log2] eqn:Hrec.
      injection H as -> -> <-. apply aborts_on_failure_app; eauto.
Qed.

Lemma get_full_shared_steps_aborts fuel self organization_name project_name
  w r w' log :
  get_full_shared_steps urlopen_page urlopen_record fuel self organization_name
    project_name w = (r, w', log) ->
  aborts_on_failure (error_of_result r) log.
Proof.
  unfold get_full_shared_steps, bind, shared_steps_loop.
  destruct (collect_pages _ _ _ _ w) as [[exit w1] log1] eqn:Hloop.
  apply collect_pages_aborts in Hloop as [Hloop Hdata];
    [|intros *; apply make_api_request_aborts].
  destruct exit as [[[message | data] | all_shared_steps] |].
  - intros [= <- <- <-]. now rewrite app_nil_r.
  - now destruct (Hdata data).
  - destruct (fetch_each _ _ _ w1) as [[res w2] log2] eqn:Heach.
    apply fetch_each_aborts in Heach;
      [|intros *; apply make_api_request_aborts].
    intros [= <- <- <-]. rewrite app_nil_r.
    now apply aborts_on_failure_app.
  - intros [= <- <- <-]. now rewrite app_nil_r.
Qed.

Lemma get_full_test_cases_aborts fuel self organization_name project_name
  test_case_numbers w r w' log :
  get_full_test_cases urlopen_page urlopen_record fuel self organization_name
    project_name test_case_numbers w = (r, w', log) ->
  aborts_on_failure (error_of_result r) log.
Proof.
  unfold get_full_test_cases, bind, test_cases_loop.
  destruct test_case_numbers as [numbers|].
  - destruct (fetch_each _ _ _ w) as [[res w2] log2] eqn:Heach.
    apply fetch_each_aborts in Heach;
      [|intros *; apply make_api_request_aborts].
    intros [= <- <- <-]. now rewrite app_nil_r.
  - destruct (collect_pages _ _ _ _ w) as [[exit w1] log1] eqn:Hloop.
    apply collect_pages_aborts in Hloop as [Hloop Hdata];
      [|intros *; apply make_api_request_aborts].
    destruct exit as [[[message | data] | all_test_cases] |].
    + intros [= <- <- <-]. now rewrite app_nil_r.
    + now destruct (Hdata data).
    + destruct (fetch_each _ _ _ w1) as [[res w2] log2] eqn:Heach.
      apply fetch_each_aborts in Heach;
        [|intros *; apply make_api_request_aborts].
      intros [= <- <- <-]. rewrite app_nil_r.
      now apply aborts_on_failure_app.
    + intros [= <- <- <-]. now rewrite app_nil_r.
Qed.

(** [_main] ends by [exit(1)] with the message of the failed request,
    or no request failed; the status of an exit is never 0. *)
Lemma main_aborts fuel token organization_name project_name test_case_numbers
  locale w r w' log :
  _main urlopen_page urlopen_record fuel token organization_name project_name
    test_case_numbers locale w = (r, w', log) ->
  aborts_on_failure (error_of_outcome r) log
  /\ (forall status message, r = Some (Exit status message) -> status = 1%Z).
Proof.
  unfold _main, bind.
  destruct (get_full_shared_steps _ _ _ _ _ _ w) as [[r1 w1] log1] eqn:H1.
  apply get_full_shared_steps_aborts in H1.
  destruct r1 as [[message | shared_steps] |].
  - intros [= <- <- <-]. rewrite app_nil_r. split; [exact H1|].
    now intros status m [= <- _].
  - destruct (get_full_test_cases _ _ _ _ _ _ _ w1) as [[r2 w2] log2] eqn:H2.
    apply get_full_test_cases_aborts in H2.
    destruct r2 as [[message | test_cases] |]; intros [= <- <- <-];
      rewrite app_nil_r.
    + split; [now apply aborts_on_failure_app|]. now intros status m [= <- _].
    + split.
      * destruct (expand_test_cases _ _ _); now apply aborts_on_failure_app.
      * destruct (expand_test_cases _ _ _); discriminate.
    + split; [now apply aborts_on_failure_app | discriminate].
  - intros [= <- <- <-]. rewrite app_nil_r. split; [exact H1 | discriminate].
Qed.

(** A failed request in the log of a disciplined operation is the last
    request, and its message is the error the operation ended with. *)
Lemma failure_is_the_result failure log url message :
  aborts_on_failure failure log ->
  In (url, Some message) log ->
  failure = Some message
  /\ (exists earlier, log = earlier ++ [(url, Some message)] /\ clean earlier)
  /\ (exists reason, message = str "Error: " ++ url ++ str " - " ++ reason).
Proof.
  intros [Htell Hfail] Hin.
  assert (Hlast : forall m, failed_last m log ->
            m = message
            /\ exists earlier, log = earlier ++ [(url, Some message)] /\ clean earlier).
  { intros m (earlier & u & -> & Hclean).
    apply in_app_or in Hin as [Hin | [Hin | []]].
    - apply (proj1 (List.Forall_forall _ _) Hclean) in Hin. discriminate.
    - injection Hin as -> ->. eauto. }
  split; [|split].
  - destruct failure as [m|].
    + now destruct (Hlast m Hfail) as [-> _].
    + apply (proj1 (List.Forall_forall _ _) Hfail) in Hin. discriminate.
  - destruct failure as [m|].
    + now destruct (Hlast m Hfail) as [_ H].
    + apply (proj1 (List.Forall_forall _ _) Hfail) in Hin. discriminate.
  - apply (proj1 (List.Forall_forall _ _) Htell) in Hin. exact Hin.
Qed.

(** C9. When a request issued by a bulk retrieval fails, whether a
    page request or the request of one record, the retrieval returns
    the error result of that request, whose message holds the URL of
    the request and the reason; that request is the last one issued
    and the only one that failed, so nothing fetched before is
    returned. When this happens in [_main], the run ends by [exit(1)]
    after logging that message, with nothing printed. *)
Theorem fetch_errors_abort
  (fuel : nat) (self : client)
  (token organization_name project_name locale : pystr)
  (test_case_numbers : option (list Z))
  (w w' : World) (log : list event) (url message : pystr) :
  In (url, Some message) log ->
  (forall r,
      get_full_shared_steps urlopen_page urlopen_record fuel self
        organization_name project_name w = (r, w', log) ->
      r = Some (Error message) /\ only_failure url message log)
  /\ (forall r,
        get_full_test_cases urlopen_page urlopen_record fuel self
          organization_name project_name test_case_numbers w = (r, w', log) ->
        r = Some (Error message) /\ only_failure url message log)
  /\ (forall r,
        _main urlopen_page urlopen_record fuel token organization_name
          project_name test_case_numbers locale w = (r, w', log) ->
        r = Some (Exit 1 message) /\ only_failure url message log).
Proof.
  intros Hin. split; [|split]; intros r H.
  - apply get_full_shared_steps_aborts in H.
    destruct (failure_is_the_result _ _ _ _ H Hin) as (E & Hlast & Hurl).
    split; [|now split].
    destruct r as [[m | data] |]; simpl in E; congruence.
  - apply get_full_test_cases_aborts in H.
    destruct (failure_is_the_result _ _ _ _ H Hin) as (E & Hlast & Hurl).
    split; [|now split].
    destruct r as [[m | data] |]; simpl in E; congruence.
  - apply main_aborts in H as [H Hstatus].
    destruct (failure_is_the_result _ _ _ _ H Hin) as (E & Hlast & Hurl).
    split; [|now split].
    destruct r as [[status m | printed] |]; simpl in E; try discriminate.
    injection E as ->. now rewrite (Hstatus status message eq_refl).
Qed.

End ServiceFacts.

(** The loop of [get_full_shared_steps] on a scripted service: a page
    with the items 3 and 7, a page with the item 8, then an empty
    page. The cursors are 1, 8 and 9, and the loop is left with the
    three items in order. *)
Example shared_steps_loop_on_script :
  shared_steps_loop scripted_pages 4 acme (str "Acme") (str "Shop")
    [ Loaded [group 3 (str "A") []; group 7 (str "B") []];
      Loaded [group 8 (str "C") []] ]
  = (Some (Broke [group 3 (str "A") []; group 7 (str "B") [];
                  group 8 (str "C") []]),
     [],
     [ (page_request_url (str "1"), None);
       (page_request_url (str "8"), None);
       (page_request_url (str "9"), None) ]).
Proof. vm_compute. reflexivity. Qed.

Lemma fetch_errors_abort_witness :
  _main scripted_pages no_record 3 (str "secret") (str "Acme") (str "Shop")
    None (str "en") [ Loaded [group 3 (str "A") []] ]
  = (Some (Exit 1 not_found_message), [],
     [ (page_request_url (str "1"), None);
       (page_request_url (str "4"), None);
       (item_request_url (str "3"), Some not_found_message) ]).
Proof.
  assert (H : In (item_request_url (str "3"), Some not_found_message)
                 [ (page_request_url (str "1"), None);
                   (page_request_url (str "4"), None);
                   (item_request_url (str "3"), Some not_found_message) ])
    by (simpl; tauto).
  destruct (_main scripted_pages no_record 3 (str "secret") (str "Acme")
              (str "Shop") None (str "en") [ Loaded [group 3 (str "A") []] ])
    as [[r w'] log] eqn:E.
  assert (Hw : w' = [] /\ log = [ (page_request_url (str "1"), None);
                                  (page_request_url (str "4"), None);
                                  (item_request_url (str "3"), Some not_found_message) ])
    by (vm_compute in E; injection E as _ <- <-; split; reflexivity).
  destruct Hw as [-> ->].
  destruct (fetch_errors_abort scripted_pages no_record 3 acme (str "secret")
              (str "Acme") (str "Shop") (str "en") None
              [ Loaded [group 3 (str "A") []] ] [] _ _ _ H)
    as (_ & _ & Hmain).
  destruct (Hmain r E) as [-> _]. reflexivity.
Defined.

(** * Further properties of the code *)

(** ** More on the pattern and the candidates *)

Lemma dot_star_close_ends r n :
  no_lf r -> Re.dot_star_close r = Some n -> exists mid, r = mid ++ [RPAREN].
Proof.
  intros H. revert n. induction H as [|c r Hc Hr IH]; intros n; [discriminate|].
  cbn [Re.dot_star_close]. apply N.eqb_neq in Hc. rewrite Hc.
  destruct (Re.dot_star_close r) as [k|].
  - intros _. destruct (IH k eq_refl) as [mid ->]. now exists (c :: mid).
  - destruct (c =? RPAREN) eqn:Hp; [|discriminate]. apply N.eqb_eq in Hp. subst c.
    cbn [andb]. destruct r as [|d r']; [intros _; now exists []|].
    destruct r' as [|e r'']; [|discriminate].
    cbn [Re.at_dollar]. inversion Hr as [|? ? Hd _]; subst.
    apply N.eqb_neq in Hd. rewrite Hd. discriminate.
Qed.

Lemma dot_star_close_closed mid :
  no_lf mid -> Re.dot_star_close (mid ++ [RPAREN]) <> None.
Proof.
  induction 1 as [|c mid Hc Hmid IH]; [discriminate|].
  cbn [app Re.dot_star_close]. apply N.eqb_neq in Hc. rewrite Hc.
  destruct (Re.dot_star_close (mid ++ [RPAREN])); [discriminate | contradiction].
Qed.

Lemma no_lf_app s1 s2 : no_lf (s1 ++ s2) <-> no_lf s1 /\ no_lf s2.
Proof. unfold no_lf. apply Forall_app. Qed.

Lemma search_app_match pre s : Re.search s = true -> Re.search (pre ++ s) = true.
Proof.
  intros H. induction pre as [|c pre IH]; [exact H|].
  cbn [app Re.search]. destruct (Re.match_here (c :: pre ++ s)); [reflexivity | exact IH].
Qed.

(** The candidates of a name without a line feed, in full. *)
Lemma candidates_by_search name :
  no_lf name ->
  shared_step_name_candidate_iterator name
  = strip name :: (if Re.search name then [strip (before_paren name)] else []).
Proof.
  intros H. unfold shared_step_name_candidate_iterator. f_equal.
  destruct (sub_cuts_at_first_paren name H) as [[Hs He] | [Hs He]]; rewrite Hs.
  - destruct (length name); cbn [candidate_loop]; [reflexivity|]. now rewrite Hs.
  - destruct name as [|c r]; [discriminate|].
    cbn [length candidate_loop]. rewrite Hs, He. f_equal.
    destruct (length r); cbn [candidate_loop]; [reflexivity|].
    now rewrite before_paren_no_match.
Qed.

(** X1. The resolution policy in full, for a reference name without a
    line feed (every name taken from a line is one): the group stored
    under the stripped name wins; failing that, and only when the
    pattern matches the name, the group stored under the stripped text
    before the first opening parenthesis; failing that, none. No other
    key of the map is ever looked at. *)
Theorem resolve_policy (name : pystr) (m : gmap pystr record) :
  no_lf name ->
  resolve name m
  = match m !! strip name with
    | Some shared_step => Some shared_step
    | None =>
        if Re.search name then m !! strip (before_paren name) else None
    end.
Proof.
  intros H. unfold resolve. rewrite candidates_by_search by assumption.
  cbn [first_known]. destruct (m !! strip name); [reflexivity|].
  destruct (Re.search name); cbn [first_known]; [|reflexivity].
  now destruct (m !! strip (before_paren name)).
Qed.

Lemma resolve_policy_witness :
  resolve (str " Login (2) (email: a@b.com)") both_logins
  = Some (group 1 (str "Login") (str "First login")).
Proof.
  rewrite resolve_policy
    by (unfold no_lf; repeat (constructor; [discriminate|]); constructor).
  vm_compute. reflexivity.
Defined.

(** X2. A name without a line feed gets a fallback candidate exactly
    when it ends with a closing parenthesis and has an opening
    parenthesis somewhere before it; nothing after the closing
    parenthesis is tolerated, and the parentheses need not be
    balanced. *)
Theorem fallback_needs_closing_parenthesis (name : pystr) :
  no_lf name ->
  (Re.search name = true
   <-> exists pre mid, name = pre ++ LPAREN :: mid ++ [RPAREN]).
Proof.
  intros H. split.
  - induction H as [|c r Hc Hr IH]; [discriminate|].
    cbn [Re.search]. unfold Re.match_here.
    destruct (c =? LPAREN) eqn:Hp.
    + apply N.eqb_eq in Hp. subst c.
      destruct (Re.dot_star_close r) as [n|] eqn:Hd; cbn.
      * intros _. destruct (dot_star_close_ends r n Hr Hd) as [mid ->].
        now exists [], mid.
      * intros Hs. destruct (IH Hs) as (pre & mid & ->).
        now exists (LPAREN :: pre), mid.
    + intros Hs. destruct (IH Hs) as (pre & mid & ->). now exists (c :: pre), mid.
  - intros (pre & mid & ->). apply search_app_match.
    apply no_lf_app in H as [_ H]. inversion H as [|? ? _ Hmid]; subst.
    apply no_lf_app in Hmid as [Hmid _].
    cbn [Re.search]. unfold Re.match_here. rewrite N.eqb_refl.
    pose proof (dot_star_close_closed mid Hmid) as Hne.
    destruct (Re.dot_star_close (mid ++ [RPAREN])); [reflexivity | contradiction].
Qed.

Lemma fallback_needs_closing_parenthesis_witness :
  Re.search (str "Login (2") = false.
Proof.
  destruct (Re.search (str "Login (2")) eqn:E; [|reflexivity].
  apply fallback_needs_closing_parenthesis in E;
    [|unfold no_lf; repeat (constructor; [discriminate|]); constructor].
  destruct E as (pre & mid & E). exfalso.
  apply (f_equal (@rev N)) in E.
  rewrite rev_app_distr in E. cbn [rev] in E.
  rewrite rev_app_distr in E. vm_compute in E. discriminate.
Defined.

(** A match holds two code points at least, and a round removes it. *)
Lemma dot_star_close_bounds r n :
  Re.dot_star_close r = Some n -> (1 <= n <= length r)%nat.
Proof.
  revert n. induction r as [|c r IH]; intros n; [discriminate|].
  cbn [Re.dot_star_close length].
  destruct (if c =? LF then None else Re.dot_star_close r) as [k|] eqn:Hk.
  - intros [= <-]. destruct (c =? LF); [discriminate|]. specialize (IH k Hk). lia.
  - destruct ((c =? RPAREN) && Re.at_dollar r); [|discriminate]. intros [= <-]. lia.
Qed.

Lemma sub_from_skips k s :
  (k <= length s)%nat -> (length (Re.sub_from k s) + k <= length s)%nat.
Proof.
  revert k. induction s as [|c r IH]; intros k Hk; [simpl in *; lia|].
  destruct k as [|k].
  - pose proof (sub_from_length 0 (c :: r)). lia.
  - cbn [Re.sub_from length] in *. specialize (IH k). lia.
Qed.

Lemma search_sub_shorter_by_two s :
  Re.search s = true -> (length (Re.sub s) + 2 <= length s)%nat.
Proof.
  unfold Re.sub. induction s as [|c r IH]; [discriminate|].
  cbn [Re.search Re.sub_from]. unfold Re.match_here at 1 2.
  destruct (c =? LPAREN).
  - destruct (Re.dot_star_close r) as [n|] eqn:Hd; cbn.
    + intros _. apply dot_star_close_bounds in Hd.
      pose proof (sub_from_skips n r). cbn [length]. lia.
    + intros H. specialize (IH H). cbn [length]. lia.
  - intros H. specialize (IH H). cbn [length]. lia.
Qed.

(** X3. The [while] loop of the candidate iterator ends for every text,
    line feeds or not: a round removes two code points at least, so
    the loop yields at most one candidate per two code points of the
    name, and a larger bound on the rounds yields nothing more. *)
Theorem candidate_loop_terminates (name : pystr) (extra : nat) :
  candidate_loop (extra + length name) name = candidate_loop (length name) name
  /\ (2 * length (candidate_loop (length name) name) <= length name)%nat
  /\ (2 * length (shared_step_name_candidate_iterator name)
      <= 2 + length name)%nat.
Proof.
  split; [apply candidate_loop_stable|].
  assert (H : forall fuel s,
             (2 * length (candidate_loop fuel s) <= length s)%nat).
  { induction fuel as [|fuel IH]; intros s; [simpl; lia|].
    cbn [candidate_loop]. destruct (Re.search s) eqn:Hs; [|simpl; lia].
    apply search_sub_shorter_by_two in Hs. specialize (IH (Re.sub s)).
    cbn [length]. lia. }
  split; [apply H|].
  unfold shared_step_name_candidate_iterator. cbn [length].
  specialize (H (length name) name). lia.
Qed.

(** ** More on stripping and the extractor *)

Lemma lstrip_blank_app pre s : is_blank pre = true -> lstrip (pre ++ s) = lstrip s.
Proof.
  unfold is_blank. induction pre as [|c pre IH]; [reflexivity|].
  cbn [forallb app lstrip]. intros H. apply andb_true_iff in H as [Hc H].
  rewrite Hc. auto.
Qed.

Lemma lstrip_app_nonblank s post :
  is_blank s = false -> lstrip (s ++ post) = lstrip s ++ post.
Proof.
  unfold is_blank. induction s as [|c s IH]; [discriminate|].
  cbn [forallb app lstrip]. destruct (isspace c); [exact IH | reflexivity].
Qed.

Lemma rstrip_app_blank s post : is_blank post = true -> rstrip (s ++ post) = rstrip s.
Proof.
  intros H. unfold rstrip. rewrite rev_app_distr, lstrip_blank_app; [reflexivity|].
  now rewrite is_blank_rev.
Qed.

Lemma is_blank_app s1 s2 : is_blank (s1 ++ s2) = is_blank s1 && is_blank s2.
Proof. apply forallb_app. Qed.

(** Whitespace around a text does not change what is left of it. *)
Lemma strip_surrounded pre s post :
  is_blank pre = true -> is_blank post = true ->
  strip (pre ++ s ++ post) = strip s.
Proof.
  intros Hpre Hpost. unfold strip. rewrite lstrip_blank_app by assumption.
  destruct (is_blank s) eqn:Hs.
  - assert (H1 : lstrip (s ++ post) = []).
    { apply lstrip_nil. now rewrite is_blank_app, Hs, Hpost. }
    assert (H2 : lstrip s = []) by now apply lstrip_nil.
    now rewrite H1, H2.
  - rewrite lstrip_app_nonblank by assumption. now apply rstrip_app_blank.
Qed.

(** X4. Whitespace before and after a line (the indentation that an
    expansion adds, a trailing blank) does not change the name the
    extractor yields, so it does not change whether the line is a
    reference line. *)
Theorem extract_ignores_surrounding_whitespace (pre step post : pystr) :
  is_blank pre = true -> is_blank post = true ->
  extract_shared_step_name (pre ++ step ++ post) = extract_shared_step_name step.
Proof.
  intros Hpre Hpost. unfold extract_shared_step_name.
  now rewrite strip_surrounded.
Qed.

Lemma extract_ignores_surrounding_whitespace_witness :
  extract_shared_step_name (str "    " ++ str "Shared step: Login" ++ [9; 32])
  = extract_shared_step_name (str "Shared step: Login").
Proof.
  apply extract_ignores_surrounding_whitespace; reflexivity.
Defined.

Lemma startswith_app p rest : startswith (p ++ rest) p = true.
Proof.
  induction p as [|a p IH]; [now destruct rest|].
  cbn [app startswith]. now rewrite N.eqb_refl, IH.
Qed.

Lemma startswith_split s p : startswith s p = true -> s = p ++ drop (length p) s.
Proof.
  revert s. induction p as [|a p IH]; intros s H; [reflexivity|].
  destruct s as [|b s]; [discriminate|]. cbn [startswith] in H.
  apply andb_true_iff in H as [Hab H]. apply N.eqb_eq in Hab. subst b.
  cbn [length drop app]. f_equal. now apply IH.
Qed.

Lemma drop_prefix (p rest : pystr) : drop (length p) (p ++ rest) = rest.
Proof. induction p; [reflexivity | assumption]. Qed.

(** The three ways the loop over the prefixes ends. *)
Lemma extract_cases (step : pystr) :
  (forall prefix rest,
      In prefix prefixes -> strip step = prefix ++ rest ->
      extract_shared_step_name step = rest)
  /\ (extract_shared_step_name step <> [] ->
      exists prefix, In prefix prefixes
                     /\ strip step = prefix ++ extract_shared_step_name step).
Proof.
  unfold extract_shared_step_name. generalize (strip step) as s. intros s.
  split.
  - intros prefix rest [<- | [<- | []]] ->; cbn [prefixes extract_loop].
    + now rewrite startswith_app, replace1_prefix, drop_prefix
        by apply startswith_app.
    + change (startswith _ (str "Shared step:")) with false. cbv iota.
      now rewrite startswith_app, replace1_prefix, drop_prefix
        by apply startswith_app.
  - cbn [prefixes extract_loop].
    destruct (startswith s (str "Shared step:")) eqn:H1.
    { intros _. exists (str "Shared step:"). split; [now left|].
      rewrite replace1_prefix by assumption. now apply startswith_split. }
    destruct (startswith s [0x5171; 0x6709; 0x30b9; 0x30c6; 0x30c3; 0x30d7; 0x3a])
      eqn:H2; [|congruence].
    intros _. eexists. split; [right; now left|].
    rewrite replace1_prefix by assumption. now apply startswith_split.
Qed.

(** X5. The extractor yields a non-empty name exactly when the
    stripped line is one of the marker prefixes followed by that name:
    the name is all that follows the first marker, with its leading
    whitespace and any later marker left in. *)
Theorem extract_returns_text_after_marker (step rest : pystr) :
  rest <> [] ->
  (extract_shared_step_name step = rest
   <-> exists prefix, In prefix prefixes /\ strip step = prefix ++ rest).
Proof.
  intros Hrest. destruct (extract_cases step) as [Hfwd Hback]. split.
  - intros E. rewrite <- E. apply Hback. congruence.
  - intros (prefix & Hin & Hs). eauto.
Qed.

Lemma extract_returns_text_after_marker_witness :
  extract_shared_step_name (str "  Shared step: Login (2) ") = str " Login (2)".
Proof.
  apply extract_returns_text_after_marker; [discriminate|].
  exists (str "Shared step:"). split; [now left | reflexivity].
Defined.

(** X6. Empty lines and lines of whitespace only are leaves: the
    extractor yields the empty name on them, and the step counter
    counts each of them as one step. *)
Theorem blank_lines_are_steps (lines : list pystr) :
  Forall (fun l => is_blank l = true) lines ->
  Forall is_line lines ->
  Forall (fun l => extract_shared_step_name l = []) lines
  /\ calculate_total_step_count (join_lines lines) = length lines.
Proof.
  intros Hblank Hlines.
  assert (H : Forall (fun l => extract_shared_step_name l = []) lines).
  { eapply Forall_impl; [exact Hblank|]. intros l Hl.
    unfold extract_shared_step_name. apply strip_nil in Hl. now rewrite Hl. }
  split; [exact H|].
  unfold calculate_total_step_count. rewrite splitlines_join by assumption.
  clear Hblank Hlines. induction H as [|l ls Hl Hls IH]; [reflexivity|].
  cbn [List.filter]. unfold is_leaf at 1. rewrite Hl. cbn [length]. now rewrite IH.
Qed.

Lemma blank_lines_are_steps_witness :
  calculate_total_step_count (join_lines [[]; str "  "; [9]]) = 3%nat.
Proof.
  apply (blank_lines_are_steps [[]; str "  "; [9]]);
    repeat constructor.
Defined.

(** ** How expansions compose *)

Lemma expand_steps_res (expand : pystr -> option pystr) (steps : list pystr)
  (m : name_map) (res : pystr) :
  expand_steps expand steps m res
  = (fun out => res ++ out) <$> expand_steps expand steps m [].
Proof.
  revert res. induction steps as [|step rest IH]; intros res.
  - simpl. now rewrite app_nil_r.
  - destruct (extract_shared_step_name step) eqn:E.
    + rewrite !expand_steps_leaf by assumption.
      rewrite (IH (res ++ _)), (IH ([] ++ _)).
      destruct (expand_steps expand rest m []); simpl; [|reflexivity].
      now rewrite <- !app_assoc.
    + rewrite !expand_steps_reference by congruence.
      destruct (expand_candidates _ _ _ _) as [e|]; [|reflexivity].
      rewrite (IH ((res ++ _) ++ _)), (IH (([] ++ _) ++ _)).
      destruct (expand_steps expand rest m []); simpl; [|reflexivity].
      now rewrite <- !app_assoc.
Qed.

Lemma expand_steps_app (expand : pystr -> option pystr)
  (steps1 steps2 : list pystr) (m : name_map) (res : pystr) :
  expand_steps expand (steps1 ++ steps2) m res
  = match expand_steps expand steps1 m res with
    | Some res1 => expand_steps expand steps2 m res1
    | None => None
    end.
Proof.
  revert res. induction steps1 as [|step rest IH]; intros res; [reflexivity|].
  change ((step :: rest) ++ steps2) with (step :: (rest ++ steps2)).
  destruct (extract_shared_step_name step) eqn:E.
  - rewrite !expand_steps_leaf by assumption. apply IH.
  - rewrite !expand_steps_reference by congruence.
    destruct (expand_candidates _ _ _ _) as [e|]; [apply IH | reflexivity].
Qed.

Lemma splitlines_join_app ls rest :
  Forall is_line ls -> splitlines (join_lines ls ++ rest) = ls ++ splitlines rest.
Proof.
  unfold splitlines. induction 1 as [|l ls Hl Hls IH]; [reflexivity|].
  rewrite join_lines_cons, <- app_assoc. cbn [app].
  rewrite splitlines_gen_line by assumption.
  now rewrite app_nil_r, IH.
Qed.

(** X7. Expansion goes line by line: the expansion of a text that
    starts with complete lines (each ended by a line feed) is the
    expansion of those lines followed by the expansion of the rest, and
    it is cut off as soon as one of the two is. *)
Theorem expansion_of_concatenation
  (depth : nat) (lines : list pystr) (block : pystr) (m : name_map) :
  Forall is_line lines ->
  human_readable_steps_with_shared_steps_expanded (S depth)
    (join_lines lines ++ block) m
  = match human_readable_steps_with_shared_steps_expanded (S depth)
            (join_lines lines) m,
          human_readable_steps_with_shared_steps_expanded (S depth) block m with
    | Some out1, Some out2 => Some (out1 ++ out2)
    | _, _ => None
    end.
Proof.
  intros H. cbn [human_readable_steps_with_shared_steps_expanded].
  rewrite splitlines_join_app, splitlines_join by assumption.
  rewrite expand_steps_app.
  destruct (expand_steps _ lines m []) as [out1|]; [|reflexivity].
  rewrite expand_steps_res.
  now destruct (expand_steps _ (splitlines block) m []).
Qed.

Lemma expansion_of_concatenation_witness :
  human_readable_steps_with_shared_steps_expanded 2
    (join_lines [str "Shared step: Login"] ++ str "Click submit")
    {[ str "Login" := group 1 (str "Login") login_steps ]}
  = Some (str "Shared step: Login" ++ [LF] ++ str "  Enter username" ++ [LF]
            ++ str "  Enter password" ++ [LF] ++ str "Click submit" ++ [LF]).
Proof.
  rewrite expansion_of_concatenation by (repeat constructor).
  vm_compute. reflexivity.
Defined.

(** ** The lines of an expansion *)

(** The loop only adds lines after the lines it copies. *)
Lemma expand_steps_sublist (expand : pystr -> option pystr)
  (steps : list pystr) (m : name_map) (res out : pystr) :
  (forall s o, expand s = Some o ->
               exists ls, Forall is_line ls /\ o = join_lines ls) ->
  Forall is_line steps ->
  expand_steps expand steps m res = Some out ->
  exists ls, Forall is_line ls /\ out = res ++ join_lines ls
             /\ steps `sublist_of` ls.
Proof.
  intros Hexp Hsteps. revert res.
  induction Hsteps as [|step rest Hstep Hrest IH]; intros res H.
  - injection H as <-. exists []. rewrite app_nil_r. repeat split; constructor.
  - destruct (extract_shared_step_name step) eqn:E.
    + rewrite expand_steps_leaf in H by assumption.
      destruct (IH _ H) as (ls & Hls & -> & Hsub).
      exists (step :: ls). split; [constructor; auto|].
      split; [|now constructor].
      rewrite join_lines_cons, <- !app_assoc. reflexivity.
    + rewrite expand_steps_reference in H by congruence.
      rewrite expand_candidates_first_known in H.
      destruct (first_known _ m) as [g|].
      * destruct (expand (human_readable_steps g)) as [o|] eqn:Ho; [|discriminate].
        simpl in H. destruct (Hexp _ _ Ho) as (ls1 & Hls1 & ->).
        rewrite textwrap_indent_join in H by assumption.
        destruct (IH _ H) as (ls & Hls & -> & Hsub).
        exists (step :: List.map (indent_line (spaces (2 + leading_whitespace step))) ls1 ++ ls).
        split; [|split].
        -- constructor; auto. apply Forall_app. split; auto.
           now apply indent_lines_are_lines.
        -- rewrite join_lines_cons, join_lines_app, <- !app_assoc. reflexivity.
        -- constructor. now apply sublist_inserts_l.
      * destruct (IH _ H) as (ls & Hls & -> & Hsub).
        exists (step :: ls). split; [constructor; auto|].
        split; [|now constructor].
        rewrite join_lines_cons, app_nil_r, <- !app_assoc. reflexivity.
Qed.

Lemma filter_sublist_length (f : pystr -> bool) (l1 l2 : list pystr) :
  l1 `sublist_of` l2 ->
  (length (List.filter f l1) <= length (List.filter f l2))%nat.
Proof.
  induction 1 as [|x l1 l2 _ IH|x l1 l2 _ IH]; cbn [List.filter];
    [lia | destruct (f x); cbn [length]; lia | destruct (f x); cbn [length]; lia].
Qed.

(** X8. Expansion only adds lines: the lines of the block are, in
    order, among the lines of the result, so the result has at least as
    many lines and at least as high a step count as the block. *)
Theorem expansion_only_adds_lines
  (depth : nat) (block : pystr) (m : name_map) (out : pystr) :
  human_readable_steps_with_shared_steps_expanded depth block m = Some out ->
  splitlines block `sublist_of` splitlines out
  /\ (length (splitlines block) <= length (splitlines out))%nat
  /\ (calculate_total_step_count block <= calculate_total_step_count out)%nat.
Proof.
  intros H. destruct depth as [|depth]; [discriminate|].
  cbn [human_readable_steps_with_shared_steps_expanded] in H.
  apply expand_steps_sublist in H.
  - destruct H as (ls & Hls & -> & Hsub). cbn [app].
    unfold calculate_total_step_count. rewrite splitlines_join by assumption.
    split; [exact Hsub|]. split; [now apply sublist_length|].
    now apply filter_sublist_length.
  - intros s o Ho. destruct (expanded_lines _ _ _ _ Ho) as (ls & ? & ? & _). eauto.
  - apply splitlines_is_line.
Qed.

Lemma expansion_only_adds_lines_witness :
  splitlines login_input `sublist_of` splitlines (login_expected ++ [LF]).
Proof.
  apply (expansion_only_adds_lines 2 login_input
           {[ str "Login" := group 1 (str "Login") login_steps ]}).
  vm_compute. reflexivity.
Defined.

(** ** The step count of an expansion *)

Lemma extract_indent_line n l :
  extract_shared_step_name (indent_line (spaces n) l) = extract_shared_step_name l.
Proof.
  unfold indent_line. destruct (is_blank l); [reflexivity|].
  unfold extract_shared_step_name. f_equal.
  rewrite <- (app_nil_r l) at 1.
  apply strip_surrounded; [|reflexivity].
  unfold is_blank, spaces. induction n; [reflexivity | assumption].
Qed.

Lemma is_leaf_indent_line n l : is_leaf (indent_line (spaces n) l) = is_leaf l.
Proof. unfold is_leaf. now rewrite extract_indent_line. Qed.

Lemma leaves_of_indented n ls :
  length (List.filter is_leaf (List.map (indent_line (spaces n)) ls))
  = length (List.filter is_leaf ls).
Proof.
  induction ls as [|l ls IH]; [reflexivity|].
  cbn [List.map List.filter]. rewrite is_leaf_indent_line.
  destruct (is_leaf l); cbn [length]; now rewrite IH.
Qed.

Lemma count_join_lines ls :
  Forall is_line ls ->
  calculate_total_step_count (join_lines ls) = length (List.filter is_leaf ls).
Proof.
  intros H. unfold calculate_total_step_count. now rewrite splitlines_join.
Qed.

Lemma filter_app_length (f : pystr -> bool) l1 l2 :
  length (List.filter f (l1 ++ l2))
  = (length (List.filter f l1) + length (List.filter f l2))%nat.
Proof. now rewrite List.filter_app, length_app. Qed.

Lemma count_steps_fusion (expand : pystr -> option pystr)
  (count : pystr -> option nat) (steps : list pystr) (m : name_map)
  (ls0 : list pystr) :
  (forall s o, expand s = Some o ->
               exists ls, Forall is_line ls /\ o = join_lines ls) ->
  (forall s, calculate_total_step_count <$> expand s = count s) ->
  Forall is_line steps -> Forall is_line ls0 ->
  calculate_total_step_count <$> expand_steps expand steps m (join_lines ls0)
  = Nat.add (length (List.filter is_leaf ls0)) <$> count_steps count steps m.
Proof.
  intros Hexp Hcount Hsteps. revert ls0.
  induction Hsteps as [|step rest Hstep Hrest IH]; intros ls0 Hls0.
  - simpl. now rewrite count_join_lines, Nat.add_0_r.
  - assert (Hone : join_lines ls0 ++ step ++ [LF] = join_lines (ls0 ++ [step]))
      by now rewrite join_lines_app, join_lines_one.
    assert (Hls1 : Forall is_line (ls0 ++ [step]))
      by (apply Forall_app; split; [assumption | now constructor]).
    cbn [count_steps]. destruct (extract_shared_step_name step) eqn:E.
    + rewrite expand_steps_leaf, Hone, IH by assumption.
      rewrite filter_app_length. cbn [List.filter]. unfold is_leaf at 2.
      rewrite E. cbn [length].
      destruct (count_steps count rest m); simpl; [f_equal; lia | reflexivity].
    + assert (Hleaf : is_leaf step = false) by (unfold is_leaf; now rewrite E).
      rewrite expand_steps_reference by congruence.
      rewrite expand_candidates_first_known. rewrite E. unfold resolve.
      destruct (first_known _ m) as [g|].
      * rewrite <- Hcount.
        destruct (expand (human_readable_steps g)) as [o|] eqn:Ho;
          [|reflexivity].
        cbn [fmap option_fmap option_map].
        destruct (Hexp _ _ Ho) as (ls1 & Hl1 & ->).
        rewrite textwrap_indent_join, Hone, <- join_lines_app by assumption.
        rewrite IH.
        2:{ apply Forall_app. split; [assumption|].
            now apply indent_lines_are_lines. }
        rewrite !filter_app_length, leaves_of_indented, count_join_lines
          by assumption.
        cbn [List.filter]. rewrite Hleaf. cbn [length].
        destruct (count_steps count rest m); simpl; [f_equal; lia | reflexivity].
      * rewrite app_nil_r, Hone, IH by assumption.
        rewrite filter_app_length. cbn [List.filter]. rewrite Hleaf. cbn [length].
        destruct (count_steps count rest m); simpl; [f_equal; lia | reflexivity].
Qed.

(** X9. The step count of an expanded block is the number of its leaf
    lines plus, for every reference line that resolves, the step count
    of the expanded group; reference lines themselves, resolved or not,
    add nothing, and indentation does not change the count. It is
    defined exactly when the expansion is. *)
Theorem step_count_of_expansion (depth : nat) (block : pystr) (m : name_map) :
  calculate_total_step_count
    <$> human_readable_steps_with_shared_steps_expanded depth block m
  = expansion_step_count depth block m.
Proof.
  revert block. induction depth as [|depth IH]; intros block; [reflexivity|].
  cbn [human_readable_steps_with_shared_steps_expanded expansion_step_count].
  change (@nil N) with (join_lines []).
  rewrite (count_steps_fusion _
             (fun steps => expansion_step_count depth steps m)).
  - destruct (count_steps _ _ m); reflexivity.
  - intros s o Ho. destruct (expanded_lines _ _ _ _ Ho) as (ls & ? & ? & _). eauto.
  - intros s. apply IH.
  - apply splitlines_is_line.
  - constructor.
Qed.

(** ** Expanding again, cycles, flat groups *)

(** X10. Expanding the result of an expansion of a block without
    reference lines gives that result again, whatever the map: the
    expander is the identity on its own output there. *)
Theorem expansion_twice_without_references
  (depth depth' : nat) (block : pystr) (m m' : name_map) (out : pystr) :
  Forall (fun step => extract_shared_step_name step = []) (splitlines block) ->
  human_readable_steps_with_shared_steps_expanded depth block m = Some out ->
  human_readable_steps_with_shared_steps_expanded (S depth') out m' = Some out.
Proof.
  intros Hleaf H. destruct depth as [|depth]; [discriminate|].
  cbn [human_readable_steps_with_shared_steps_expanded] in *.
  rewrite expand_steps_all_leaves in H by assumption. injection H as <-.
  cbn [app]. rewrite splitlines_join by apply splitlines_is_line.
  now rewrite expand_steps_all_leaves.
Qed.

Lemma expansion_twice_without_references_witness :
  human_readable_steps_with_shared_steps_expanded 1
    (str "Click submit" ++ [LF]) ∅
  = Some (str "Click submit" ++ [LF]).
Proof.
  apply (expansion_twice_without_references 1 0 (str "Click submit") ∅ ∅);
    [repeat constructor | reflexivity].
Defined.

(** A reference line whose group cannot be expanded stops the loop. *)
Lemma expand_steps_cut_off (expand : pystr -> option pystr)
  (steps : list pystr) (m : name_map) (res : pystr) (step : pystr)
  (shared_step : record) :
  In step steps ->
  extract_shared_step_name step <> [] ->
  resolve (extract_shared_step_name step) m = Some shared_step ->
  expand (human_readable_steps shared_step) = None ->
  expand_steps expand steps m res = None.
Proof.
  intros Hin Hname Hres Hnone. revert res.
  induction steps as [|s rest IH]; intros res; [destruct Hin|].
  destruct (extract_shared_step_name s) eqn:E.
  - rewrite expand_steps_leaf by assumption. apply IH.
    destruct Hin as [-> | Hin]; [congruence | exact Hin].
  - rewrite expand_steps_reference by congruence.
    rewrite expand_candidates_first_known.
    destruct Hin as [-> | Hin].
    + unfold resolve in Hres. now rewrite Hres, Hnone.
    + destruct (first_known _ m) as [g|]; [|now apply IH].
      destruct (expand (human_readable_steps g)); [now apply IH | reflexivity].
Qed.

(** X11. A group whose steps hold a reference line that resolves to the
    group itself cannot be expanded: whatever the recursion allowance,
    the expansion of any block with that line is cut off. The code has
    no guard against the cycle. *)
Theorem self_reference_never_ends
  (m : name_map) (step : pystr) (shared_step : record) :
  extract_shared_step_name step <> [] ->
  resolve (extract_shared_step_name step) m = Some shared_step ->
  In step (splitlines (human_readable_steps shared_step)) ->
  forall (depth : nat) (block : pystr),
    In step (splitlines block) ->
    human_readable_steps_with_shared_steps_expanded depth block m = None.
Proof.
  intros Hname Hres Hself.
  induction depth as [|depth IH]; intros block Hin; [reflexivity|].
  cbn [human_readable_steps_with_shared_steps_expanded].
  eapply expand_steps_cut_off; eauto.
Qed.

Lemma self_reference_never_ends_witness :
  human_readable_steps_with_shared_steps_expanded 1000
    (str "Shared step: Loop") {[ str "Loop" := group 1 (str "Loop") loop_steps ]}
  = None.
Proof.
  apply (self_reference_never_ends
           {[ str "Loop" := group 1 (str "Loop") loop_steps ]}
           (str "Shared step: Loop") (group 1 (str "Loop") loop_steps)).
  - vm_compute. discriminate.
  - vm_compute. reflexivity.
  - vm_compute. tauto.
  - vm_compute. tauto.
Defined.

Lemma first_known_in_map (candidates : list pystr) (m : name_map) (g : record) :
  first_known candidates m = Some g -> exists key, m !! key = Some g.
Proof.
  induction candidates as [|c cs IH]; [discriminate|]. cbn [first_known].
  destruct (m !! c) eqn:Hc; [intros [= ->]; eauto | exact IH].
Qed.

(** X12. When no group of the map has a reference line in its steps,
    every block expands, and two nested calls are enough: a deeper
    allowance gives the same result. *)
Theorem flat_groups_expand_at_depth_two (block : pystr) (m : name_map) :
  (forall key shared_step,
      m !! key = Some shared_step ->
      Forall (fun step => extract_shared_step_name step = [])
             (splitlines (human_readable_steps shared_step))) ->
  forall depth,
    exists out,
      human_readable_steps_with_shared_steps_expanded (2 + depth) block m
      = Some out.
Proof.
  intros Hflat depth.
  enough (H : exists out,
             human_readable_steps_with_shared_steps_expanded 2 block m = Some out).
  { destruct H as [out H]. exists out. eapply expanded_mono_le; [|exact H]. lia. }
  change (human_readable_steps_with_shared_steps_expanded 2 block m)
    with (expand_steps
            (fun steps => human_readable_steps_with_shared_steps_expanded 1 steps m)
            (splitlines block) m []).
  generalize (@nil N) as res. generalize (splitlines block) as steps.
  induction steps as [|step rest IH]; intros res; [now exists res|].
  destruct (extract_shared_step_name step) eqn:E.
  - rewrite expand_steps_leaf by assumption. apply IH.
  - rewrite expand_steps_reference by congruence.
    rewrite expand_candidates_first_known.
    destruct (first_known _ m) as [g|] eqn:Hg; [|apply IH].
    apply first_known_in_map in Hg as [key Hkey].
    cbn [human_readable_steps_with_shared_steps_expanded].
    rewrite expand_steps_all_leaves by (eapply Hflat; exact Hkey).
    apply IH.
Qed.

Lemma flat_groups_expand_at_depth_two_witness :
  exists out,
    human_readable_steps_with_shared_steps_expanded 2 login_input
      {[ str "Login" := group 1 (str "Login") login_steps ]}
    = Some out.
Proof.
  apply (flat_groups_expand_at_depth_two login_input
           {[ str "Login" := group 1 (str "Login") login_steps ]}).
  intros key shared_step H. apply lookup_singleton_Some in H as [_ <-].
  vm_compute. repeat constructor.
Defined.

(** ** More on the client *)

(** ** The name map *)

Lemma fold_insert_lookup (shared_steps : list record) (m0 : name_map) (key : pystr) :
  fold_left (fun m shared_step => <[ name shared_step := shared_step ]> m)
            shared_steps m0 !! key
  = match last (filter (fun shared_step => name shared_step = key) shared_steps) with
    | Some shared_step => Some shared_step
    | None => m0 !! key
    end.
Proof.
  revert m0. induction shared_steps as [|g gs IH]; intros m0; [reflexivity|].
  cbn [fold_left]. rewrite IH, filter_cons.
  destruct (decide (name g = key)) as [Hk | Hk].
  - rewrite last_cons.
    destruct (last (filter _ gs)); [reflexivity|].
    rewrite <- Hk. apply lookup_insert_eq.
  - destruct (last (filter _ gs)); [reflexivity|].
    now apply lookup_insert_ne.
Qed.

(** X13. The dict comprehension of [_main] keeps, for every name, the
    last of the fetched groups with that name: an earlier group of the
    same name is overwritten, and a name no group has is no key. *)
Theorem name_map_keeps_last_of_each_name (shared_steps : list record) (key : pystr) :
  build_name_map shared_steps !! key
  = last (filter (fun shared_step => name shared_step = key) shared_steps).
Proof.
  unfold build_name_map. rewrite fold_insert_lookup.
  now destruct (last _).
Qed.

Section MoreServiceFacts.

Context {World : Type}.
Variable urlopen_page : request -> World -> urlopen_result (list record) * World.
Variable urlopen_record : request -> World -> urlopen_result record * World.

(** ** A service that never runs out of items *)

Lemma collect_pages_endless (get_page : Z -> M World (response (list record)))
  (fuel : nat) (all_items : list record) (cursor : Z) (w : World) :
  (forall c w0, exists page w1 e,
      get_page c w0 = (Data page, w1, [e]) /\ page <> []) ->
  exists w' log,
    collect_pages fuel get_page all_items cursor w = (None, w', log)
    /\ length log = fuel.
Proof.
  intros Hpage. revert all_items cursor w.
  induction fuel as [|fuel IH]; intros all_items cursor w.
  - now exists w, [].
  - cbn [collect_pages]. unfold bind.
    destruct (Hpage cursor w) as (page & w1 & e & -> & Hne).
    destruct (last page) as [item|] eqn:Hlast;
      [|apply last_None in Hlast; contradiction].
    destruct (IH (all_items ++ page) (number item + 1)%Z w1)
      as (w' & log & -> & Hlen).
    exists w', ([e] ++ log). split; [reflexivity|]. simpl. now rewrite Hlen.
Qed.

Lemma get_shared_steps_endless self organization_name project_name params w :
  (forall req w0, exists page w1,
      urlopen_page req w0 = (Loaded page, w1) /\ page <> []) ->
  exists page w1 e,
    get_shared_steps urlopen_page self organization_name project_name params w
    = (Data page, w1, [e]) /\ page <> [].
Proof.
  intros Hpage. unfold get_shared_steps, _make_api_request.
  match goal with
  | |- context [urlopen_page ?req w] =>
      destruct (Hpage req w) as (page & w1 & -> & Hne)
  end.
  eauto.
Qed.

(** X14. When the service answers every list request with a non-empty
    page, the retrieval of the shared steps never ends: after any
    number of rounds it has made that many requests and has no result,
    and so has [_main]. The loop relies on the service for its end. *)
Theorem endless_listing_never_ends
  (fuel : nat) (self : client)
  (api_token organization_name project_name language : pystr)
  (test_case_numbers : option (list Z)) (w : World) :
  (forall req w0, exists page w1,
      urlopen_page req w0 = (Loaded page, w1) /\ page <> []) ->
  (exists w' log,
      get_full_shared_steps urlopen_page urlopen_record fuel self
        organization_name project_name w = (None, w', log)
      /\ length log = fuel)
  /\ (exists w' log,
        _main urlopen_page urlopen_record fuel api_token organization_name
          project_name test_case_numbers language w = (None, w', log)
        /\ length log = fuel).
Proof.
  intros Hpage.
  assert (H : forall self0 : client, exists w' log,
             get_full_shared_steps urlopen_page urlopen_record fuel self0
               organization_name project_name w = (None, w', log)
             /\ length log = fuel).
  { intros self0. unfold get_full_shared_steps, shared_steps_loop, bind.
    edestruct (collect_pages_endless
                 (fun n => get_shared_steps urlopen_page self0 organization_name
                             project_name [(str "min_shared_step_number", n)])
                 fuel [] 1%Z w) as (w' & log & -> & Hlen).
    { intros c w0. now apply get_shared_steps_endless. }
    exists w', (log ++ []). split; [reflexivity|]. now rewrite app_nil_r. }
  split; [apply H|].
  unfold _main, bind.
  destruct (H {| token := api_token; locale := language |})
    as (w' & log & -> & Hlen).
  exists w', (log ++ []). split; [reflexivity|]. now rewrite app_nil_r.
Qed.

(** ** The requests for single items *)


Lemma get_shared_step_one_request self organization_name project_name n w :
  exists r w' e,
    get_shared_step urlopen_record self organization_name project_name n w
    = (r, w', [(shared_step_url organization_name project_name n, e)]).
Proof.
  unfold get_shared_step, _make_api_request, shared_step_url.
  destruct (urlopen_record _ w) as [[code reason | text | data] w']; eauto.
Qed.

(** The loop over the numbers asks for the items in order, one request
    each, and stops at the first that fails. *)
Lemma fetch_each_requests (get_item : Z -> M World (response record))
  (item_url : Z -> pystr) (numbers : list Z) (items : list record)
  (w : World) (res : response (list record)) (w' : World) (log : list event) :
  (forall n w0, exists r w1 e, get_item n w0 = (r, w1, [(item_url n, e)])) ->
  fetch_each get_item numbers items w = (res, w', log) ->
  List.map fst log = List.map item_url (take (length log) numbers)
  /\ (length log <= length numbers)%nat
  /\ (forall data, res = Data data ->
        length log = length numbers
        /\ length data = (length items + length numbers)%nat).
Proof.
  intros Hitem. revert items w log.
  induction numbers as [|n rest IH]; intros items w log H.
  - injection H as <- <- <-. split; [reflexivity|]. split; [simpl; lia|].
    intros data0 [= <-]. simpl. lia.
  - cbn [fetch_each] in H. unfold bind in H.
    destruct (Hitem n w) as (r & w1 & e & Hr). rewrite Hr in H.
    destruct r as [message | data].
    + injection H as <- <- <-. split; [reflexivity|].
      split; [simpl; lia | discriminate].
    + destruct (fetch_each get_item rest (items ++ [data]) w1)
        as [[r2 w2] log2] eqn:Hrec.
      injection H as -> -> <-.
      destruct (IH _ _ _ Hrec) as (Hurls & Hlen & Hdata).
      cbn [app length take List.map fst]. rewrite Hurls.
      split; [reflexivity|]. split; [lia|].
      intros data0 E. destruct (Hdata data0 E) as [-> Hl].
      rewrite length_app in Hl. simpl in Hl. lia.
Qed.


(** A run of the protocol makes one request per page and one more. *)
Lemma paged_request_count (get_page : Z -> M World (response (list record)))
  (cursor : Z) (w : World) (pages : list (list record)) (s : stop)
  (w' : World) (log : list event) :
  (forall c w0, exists r w1 e, get_page c w0 = (r, w1, [e])) ->
  paged get_page cursor w pages s w' log ->
  length log = S (length pages).
Proof.
  intros Hone. induction 1 as [cursor w w' log Hp | cursor w w' log message Hp
                              | cursor w page item w1 log1 pages s w' log Hp Hl Hrest IH].
  - destruct (Hone cursor w) as (r & w1 & e & He). rewrite He in Hp.
    now injection Hp as _ _ <-.
  - destruct (Hone cursor w) as (r & w1 & e & He). rewrite He in Hp.
    now injection Hp as _ _ <-.
  - destruct (Hone cursor w) as (r & w2 & e & He). rewrite He in Hp.
    injection Hp as _ _ <-. simpl. now rewrite IH.
Qed.

Lemma get_shared_steps_one_request self organization_name project_name params w :
  exists r w' e,
    get_shared_steps urlopen_page self organization_name project_name params w
    = (r, w', [e]).
Proof.
  unfold get_shared_steps, _make_api_request.
  destruct (urlopen_page _ w) as [[code reason | text | data] w']; eauto.
Qed.

(** X16. When [get_full_shared_steps] succeeds, its requests are the
    page requests of the paging protocol, ended by an empty page,
    followed by one request per listed item at the URL of that item,
    in the order of the listing; it returns one record per listed
    item, and has made one request per page, one for the empty page
    and one per item. *)
Theorem full_shared_steps_on_success
  (fuel : nat) (self : client) (organization_name project_name : pystr)
  (w w' : World) (shared_steps : list record) (log : list event) :
  get_full_shared_steps urlopen_page urlopen_record fuel self organization_name
    project_name w = (Some (Data shared_steps), w', log) ->
  exists pages w1 log1 log2,
    (length pages < fuel)%nat
    /\ paged (fun cursor =>
                get_shared_steps urlopen_page self organization_name
                  project_name [(str "min_shared_step_number", cursor)])
             1%Z w pages ZeroItems w1 log1
    /\ log = log1 ++ log2
    /\ List.map fst log2
       = List.map (shared_step_url organization_name project_name)
                  (List.map number (concat pages))
    /\ length shared_steps = length (concat pages)
    /\ length log = (length pages + 1 + length (concat pages))%nat.
Proof.
  unfold get_full_shared_steps, bind, shared_steps_loop.
  destruct (collect_pages _ _ _ _ w) as [[exit w1] log1] eqn:Hloop.
  destruct exit as [[[message | data] | all_shared_steps] |];
    try (intros [= <- <- <-]; fail); try discriminate.
  - intros _. apply collect_pages_aborts in Hloop as [_ Hdata];
      [|intros *; apply make_api_request_aborts]. now destruct (Hdata data).
  - destruct (fetch_each _ _ _ w1) as [[res w2] log2] eqn:Heach.
    intros [= -> <- <-].
    apply collect_pages_paged in Hloop as (pages & s & Hlen & Hpaged & Hexit).
    destruct s as [|message]; [|discriminate]. injection Hexit as ->.
    apply (fetch_each_requests _ (shared_step_url organization_name project_name))
      in Heach as (Hurls & _ & Hdata);
      [|intros; apply get_shared_step_one_request].
    destruct (Hdata _ eq_refl) as [Hl Hn].
    exists pages, w1, log1, log2. rewrite app_nil_r.
    repeat split; try assumption.
    + now rewrite Hurls, Hl, firstn_all.
    + rewrite Hn, length_map. reflexivity.
    + rewrite length_app, Hl, length_map.
      apply paged_request_count in Hpaged;
        [|intros; apply get_shared_steps_one_request].
      lia.
Qed.

(** ** What is printed *)

Lemma expand_test_cases_each (depth : nat) (test_cases : list record)
  (m : name_map) (printed : list record) :
  expand_test_cases depth test_cases m = Some printed ->
  Forall2 (expanded_test_case depth m) test_cases printed.
Proof.
  revert printed. induction test_cases as [|tc rest IH]; intros printed.
  - intros [= <-]. constructor.
  - cbn [expand_test_cases].
    destruct (human_readable_steps_with_shared_steps_expanded depth _ m)
      as [expanded|] eqn:He; [|discriminate].
    destruct (expand_test_cases depth rest m) as [out|]; [|discriminate].
    intros [= <-]. constructor; [|now apply IH].
    repeat split. exact He.
Qed.

(** X17. When [_main] prints, both bulk retrievals succeeded, in that
    order and with no failed request, and the printed test cases are
    the fetched ones, in order, each with its number and name kept, its
    steps expanded against the map built from the fetched shared steps,
    and its [total_step_count] the count of those expanded steps. *)
Theorem printed_test_cases
  (fuel : nat) (api_token organization_name project_name language : pystr)
  (test_case_numbers : option (list Z)) (w w' : World)
  (printed : list record) (log : list event) :
  _main urlopen_page urlopen_record fuel api_token organization_name
    project_name test_case_numbers language w = (Some (Printed printed), w', log) ->
  exists shared_steps test_cases w1 log1 log2,
    get_full_shared_steps urlopen_page urlopen_record fuel
      {| token := api_token; locale := language |}
      organization_name project_name w = (Some (Data shared_steps), w1, log1)
    /\ get_full_test_cases urlopen_page urlopen_record fuel
         {| token := api_token; locale := language |}
         organization_name project_name test_case_numbers w1
       = (Some (Data test_cases), w', log2)
    /\ log = log1 ++ log2
    /\ clean log
    /\ Forall2 (expanded_test_case fuel (build_name_map shared_steps))
               test_cases printed.
Proof.
  intros H. pose proof (main_aborts _ _ _ _ _ _ _ _ _ _ _ _ H) as [[_ Hclean] _].
  revert H. unfold _main, bind.
  destruct (get_full_shared_steps _ _ _ _ _ _ w) as [[r1 w1] log1] eqn:H1.
  destruct r1 as [[message | shared_steps] |]; try discriminate.
  destruct (get_full_test_cases _ _ _ _ _ _ _ w1) as [[r2 w2] log2] eqn:H2.
  destruct r2 as [[message | test_cases] |]; try discriminate.
  destruct (expand_test_cases _ _ _) as [out|] eqn:He; [|discriminate].
  intros [= <- <- <-]. rewrite app_nil_r in *.
  exists shared_steps, test_cases, w1, log1, log2.
  repeat split; try assumption. now apply expand_test_cases_each.
Qed.

End MoreServiceFacts.

Lemma full_shared_steps_on_success_witness :
  length
    (snd (get_full_shared_steps scripted_pages found_record 3 acme (str "Acme")
            (str "Shop") [ Loaded [group 3 (str "A") []; group 7 (str "B") []] ]))
  = 4%nat.
Proof.
  destruct (get_full_shared_steps scripted_pages found_record 3 acme (str "Acme")
              (str "Shop") [ Loaded [group 3 (str "A") []; group 7 (str "B") []] ])
    as [[r w'] log] eqn:E.
  assert (Hr : r = Some (Data [group 1 (str "A") (str "Click submit");
                               group 1 (str "A") (str "Click submit")]))
    by (vm_compute in E; now injection E as <- _ _).
  subst r.
  destruct (full_shared_steps_on_success scripted_pages found_record _ _ _ _ _ _
              _ _ E) as (pages & w1 & log1 & log2 & _ & _ & _ & _ & _ & _).
  vm_compute in E. now injection E as _ <-.
Defined.

Lemma printed_test_cases_witness :
  clean
    (snd (_main scripted_pages found_record 3 (str "secret") (str "Acme")
            (str "Shop") (Some [5]%Z) (str "en") [ Loaded [group 3 (str "A") []] ])).
Proof.
  destruct (_main scripted_pages found_record 3 (str "secret") (str "Acme")
              (str "Shop") (Some [5]%Z) (str "en") [ Loaded [group 3 (str "A") []] ])
    as [[r w'] log] eqn:E.
  assert (Hr : exists printed, r = Some (Printed printed))
    by (vm_compute in E; injection E as <- _ _; eauto).
  destruct Hr as [printed ->].
  destruct (printed_test_cases scripted_pages found_record _ _ _ _ _ _ _ _ _ _ E)
    as (shared_steps & test_cases & w1 & log1 & log2 & _ & _ & _ & Hclean & _).
  exact Hclean.
Defined.


Lemma endless_listing_never_ends_witness :
  exists w' log,
    _main endless_pages any_record 50 (str "secret") (str "Acme") (str "Shop")
      None (str "en") tt = (None, w', log)
    /\ length log = 50%nat.
Proof.
  apply (endless_listing_never_ends endless_pages any_record 50 acme).
  intros req w0. exists [group 1 (str "A") []], w0. split; [reflexivity | discriminate].
Defined.
